(** * Cancelable tasks: a model of [src/async/Task.ts]

    [Task] extends the base future ([Promise]) with a fourth state,
    [Canceled], and with cancelation that travels through the tree of
    tasks derived with [then] and [finally].

    The objects of the program are records in an arena indexed by
    natural numbers (an object reference is an index); the closures
    stored in the fields [canceler] and [_finally], and the handlers
    captured by the wrappers of [then], are data.  User callbacks are
    modelled by what they do to their caller: they return a value or
    throw.  Every invocation of a callback is recorded in a log.

    The cancel hook given to the constructor runs while its task is
    still Pending, so what it calls matters as well: [cancel_calling] is
    [cancel()] with hooks that call [cancel], [resolve] or [reject]
    before they return or throw.  [cancel] is the case of hooks that make
    no such call ([cancel_calling_plain]), and the theorems stated with
    [cancel] and [Task_cancel] are about such hooks. *)

From stdpp Require Import base option list sorting.
From Stdlib Require Import Lia.

(** ** Data *)

(** [State] of the base future, and [Canceled = <State> 4]. *)
Inductive State := Pending | Fulfilled | Rejected | Canceled.

Global Instance State_eq_dec : EqDecision State.
Proof. solve_decision. Defined.

(** Run-time values, as far as the program distinguishes them:
    a thenable (an index in the store of thenables) or not. *)
Inductive Value :=
  | VUndefined
  | VData (n : nat)
  | VTypeError
  | VThenable (th : nat).

Global Instance Value_eq_dec : EqDecision Value.
Proof. solve_decision. Defined.

(** Modelled from the spec: [isThenable] of the base future's module, the
    run-time test "is this value a chainable value". *)
Definition isThenable (v : Value) : bool :=
  match v with VThenable _ => true | _ => false end.

(** A call of a user callback either returns or throws. *)
Inductive Outcome :=
  | Returns (v : Value)
  | Throws (e : Value).

Definition Handler : Type := Value → Outcome.

(** The closures stored in the field [canceler]. *)
Inductive Canceler :=
  | RootCanceler (this : nat) (hook : Outcome)
      (* constructor: [() => { canceler(); this._cancel(); }] *)
  | ThenCanceler (this task : nat)
      (* then: cancel the parent [this] if it is Pending, else [task._cancel()] *)
  | NoopCanceler.
      (* copy of a future that is not a Task: [() => {}] *)

Record Task := mkTask {
  _state : State;
  result : option Value;              (* value or error, owned by the base future *)
  canceler : Canceler;
  children : list nat;
  _finally : option Outcome;          (* the callback recorded by [finally] *)
  then_onFulfilled : option Handler;  (* captured by the wrappers of [then] *)
  then_onRejected : option Handler
}.

(** Reactions registered on a thenable with [then]. *)
Inductive Reaction :=
  | RFinally (t out : nat)   (* [runFinally] of task [t]; [out] is the thenable returned by [then] *)
  | RAdopt (out : nat).      (* [out] settles when this thenable does *)

Record Thenable := mkThenable {
  th_settled : bool;
  th_derived : bool;
  th_reactions : list Reaction
}.

(** What the log records. *)
Inductive Event :=
  | EvHook (t : nat)                               (* the cancel hook given to the constructor of [t] was called *)
  | EvPropagate (t : nat) (finallyTask : Value)    (* [t._cancel(finallyTask)] was entered *)
  | EvFinally (t : nat) (seen : State)             (* [runFinally] called [t._finally]; [seen] is [t._state] then *)
  | EvAttach (t th out : nat)                      (* [th.then(runFinally, runFinally)] was called for [t] *)
  | EvHandler (t : nat) (rejected : bool) (x : Value)  (* a handler given to [then] was called *)
  | EvResolve (t : nat) (rejected : bool) (x : Value). (* the executor's resolve or reject reached the base future *)

Global Instance Event_eq_dec : EqDecision Event.
Proof. solve_decision. Defined.

Record World := mkWorld {
  tasks : list Task;
  thenables : list Thenable;
  log : list Event       (* newest first *)
}.

Definition empty_world : World := mkWorld [] [] [].

(** ** Field updates *)

Definition with_state (s : State) (T : Task) : Task :=
  mkTask s (result T) (canceler T) (children T) (_finally T)
         (then_onFulfilled T) (then_onRejected T).

Definition with_settled (s : State) (x : Value) (T : Task) : Task :=
  mkTask s (Some x) (canceler T) (children T) (_finally T)
         (then_onFulfilled T) (then_onRejected T).

Definition with_canceler (k : Canceler) (T : Task) : Task :=
  mkTask (_state T) (result T) k (children T) (_finally T)
         (then_onFulfilled T) (then_onRejected T).

Definition with_child (c : nat) (T : Task) : Task :=
  mkTask (_state T) (result T) (canceler T) (children T ++ [c]) (_finally T)
         (then_onFulfilled T) (then_onRejected T).

Definition with_finally (cb : Outcome) (T : Task) : Task :=
  mkTask (_state T) (result T) (canceler T) (children T) (Some cb)
         (then_onFulfilled T) (then_onRejected T).

Definition set_state (w : World) (t : nat) (s : State) : World :=
  mkWorld (alter (with_state s) t (tasks w)) (thenables w) (log w).

Definition emit (e : Event) (w : World) : World :=
  mkWorld (tasks w) (thenables w) (e :: log w).

Definition state_of (w : World) (t : nat) : option State :=
  _state <$> tasks w !! t.

(** ** The propagation routine [_cancel] *)

(** [try { return cb() } catch (error) { }]: what is thrown is dropped and
    the result is [undefined]. *)
Definition caught (cb : Outcome) : Value :=
  match cb with Returns v => v | Throws _ => VUndefined end.

(** [runFinally]: call [this._finally()], ignoring what it throws. *)
Definition runFinally (w : World) (this : nat) (cb : Outcome) : World * Value :=
  let w' := match tasks w !! this with
            | Some T => emit (EvFinally this (_state T)) w
            | None => w
            end in
  (w', caught cb).

(** Modelled from the spec: the [then] of a thenable; the two callbacks
    (here both [runFinally] of [t]) run after the thenable settles, and the
    call returns a new thenable for what they return. *)
Definition thenable_then (w : World) (finallyTask : Value) (t : nat) : World * Value :=
  match finallyTask with
  | VThenable th =>
    let out := length (thenables w) in
    let reg := fun X => mkThenable (th_settled X) (th_derived X)
                                   (th_reactions X ++ [RFinally t out]) in
    (mkWorld (tasks w)
             (alter reg th (thenables w) ++ [mkThenable false true []])
             (EvAttach t th out :: log w),
     VThenable out)
  | _ => (w, VTypeError)   (* no [then] to call; excluded by [isThenable] *)
  end.

(** [Array.prototype.forEach] over a list, threading the world. *)
Fixpoint forEach {A} (f : World → A → option World) (l : list A) (w : World)
  : option World :=
  match l with
  | [] => Some w
  | x :: l' => match f w x with
               | Some w' => forEach f l' w'
               | None => None
               end
  end.

(** The block [if (this._finally) { ... }] of [_cancel]: the new value of
    [finallyTask]. *)
Definition finally_step (w : World) (this : nat) (fin : option Outcome)
    (finallyTask : Value) : World * Value :=
  match fin with
  | Some cb =>
    if isThenable finallyTask then thenable_then w finallyTask this
    else runFinally w this cb
  | None => (w, finallyTask)
  end.

(** [_cancel(finallyTask)].  The recursion follows object references, so it
    is bounded by [fuel]; [None] means the bound was reached or a reference
    was dangling. *)
Fixpoint _cancel (fuel : nat) (w : World) (this : nat) (finallyTask : Value)
  : option World :=
  match fuel with
  | 0 => None
  | S fuel' =>
    match tasks w !! this with
    | None => None
    | Some T =>
      let w1 := set_state (emit (EvPropagate this finallyTask) w) this Canceled in
      let '(w2, finallyTask') := finally_step w1 this (_finally T) finallyTask in
      forEach (fun w' child => _cancel fuel' w' child finallyTask') (children T) w2
    end
  end.

(** A bound that is enough for every well-formed world (see
    [propagate_total] and [Task_cancel_returns]). *)
Definition fuel_of (w : World) : nat := S (length (tasks w)).

Definition propagate (w : World) (t : nat) (finallyTask : Value) : option World :=
  _cancel (fuel_of w) w t finallyTask.

(** ** [cancel] and the cancelers *)

(** How a call ends: normally, by an exception, or not within the bound. *)
Inductive Completion :=
  | Normal (w : World)
  | Abrupt (e : Value) (w : World)
  | Stuck.

Definition of_option (o : option World) : Completion :=
  match o with Some w => Normal w | None => Stuck end.

(** The world a call leaves behind; an exception leaves the world as it
    was when it was thrown. *)
Definition after (w : World) (c : Completion) : World :=
  match c with Normal w' | Abrupt _ w' => w' | Stuck => w end.

(** [cancel()], with the call of [this.canceler()] unfolded by the kind of
    closure stored there, for hooks that only return or throw (hooks that
    call back into the tasks are run by [cancel_calling]). *)
Fixpoint cancel (fuel : nat) (w : World) (this : nat) : Completion :=
  match fuel with
  | 0 => Stuck
  | S fuel' =>
    match tasks w !! this with
    | None => Stuck
    | Some T =>
      if decide (_state T = Pending) then
        match canceler T with
        | RootCanceler self hook =>
          let w1 := emit (EvHook self) w in
          match hook with
          | Throws e => Abrupt e w1
          | Returns _ => of_option (propagate w1 self VUndefined)
          end
        | ThenCanceler parent task =>
          match state_of w parent with
          | Some Pending => cancel fuel' w parent
          | Some _ => of_option (propagate w task VUndefined)
          | None => Stuck
          end
        | NoopCanceler => Normal w
        end
      else Normal w
    end
  end.

Definition Task_cancel (w : World) (t : nat) : Completion :=
  cancel (fuel_of w) w t.

(** ** Construction and chaining *)

(** Modelled from the spec: the base future's constructor gives a Pending
    future without value. *)
Definition base_future (onFulfilled onRejected : option Handler) : Task :=
  mkTask Pending None NoopCanceler [] None onFulfilled onRejected.

(** [Task.copy(other)]: the state of [other], no children, and the canceler
    of [other] when [other] is a Task. *)
Definition Task_copy (other : Task) (other_is_task : bool) : Task :=
  mkTask (_state other) (result other)
         (if other_is_task then canceler other else NoopCanceler)
         [] None (then_onFulfilled other) (then_onRejected other).

(** [new Task(executor, canceler)].  The executor's later calls of the
    wrapped resolve and reject are [wrapped_resolve] and [wrapped_reject]. *)
Definition new_Task (w : World) (hook : Outcome) : World * nat :=
  let this := length (tasks w) in
  (mkWorld (tasks w ++ [with_canceler (RootCanceler this hook) (base_future None None)])
           (thenables w) (log w),
   this).

(** [then(onFulfilled, onRejected)]. *)
Definition then_ (w : World) (this : nat) (onFulfilled onRejected : option Handler)
  : option (World * nat) :=
  match tasks w !! this with
  | None => None
  | Some _ =>
    let task := length (tasks w) in
    let T := Task_copy (base_future onFulfilled onRejected) false in
    let T := with_canceler (ThenCanceler this task) T in
    Some (mkWorld (alter (with_child task) this (tasks w ++ [T])) (thenables w) (log w),
          task)
  end.

(** Modelled from the spec: the handlers the base future's [finally] gives
    to [then]; they call the callback and pass the value or error on, or
    throw what the callback throws. *)
Definition finally_onFulfilled (cb : Outcome) : Handler :=
  fun v => match cb with Returns _ => Returns v | Throws e => Throws e end.

Definition finally_onRejected (cb : Outcome) : Handler :=
  fun err => match cb with Returns _ => Throws err | Throws e => Throws e end.

(** [finally(callback)]: [super.finally(callback)], then the callback is
    kept on the new task.  Modelled from the spec: the base future's
    [finally] makes the new task with [this.then], so that it is a Task and
    a child of [this]. *)
Definition finally_ (w : World) (this : nat) (callback : Outcome)
  : option (World * nat) :=
  match then_ w this (Some (finally_onFulfilled callback))
                     (Some (finally_onRejected callback)) with
  | None => None
  | Some (w', task) =>
    Some (mkWorld (alter (with_finally callback) task (tasks w')) (thenables w') (log w'),
          task)
  end.

(** ** Settlement *)

Definition settled_state (rejected : bool) : State :=
  if rejected then Rejected else Fulfilled.

(** Modelled from the spec: the base future's resolve and reject; only a
    Pending future settles (three-state semantics, transitions leave
    Pending only).  A future in any other state is left as it is, a
    Canceled one included: what the base future does with a task that
    [_cancel] has marked is not in the sources of [Task]. *)
Definition base_settle (w : World) (t : nat) (rejected : bool) (x : Value) : World :=
  let settle := fun T =>
    if decide (_state T = Pending) then with_settled (settled_state rejected) x T else T in
  mkWorld (alter settle t (tasks w)) (thenables w) (log w).

(** The resolve and reject the constructor hands to the executor. *)
Definition wrapped_settle (w : World) (this : nat) (rejected : bool) (x : Value) : World :=
  match tasks w !! this with
  | None => w
  | Some T =>
    if decide (_state T ≠ Canceled)
    then base_settle (emit (EvResolve this rejected x) w) this rejected x
    else w
  end.

Definition wrapped_resolve (w : World) (this : nat) (value : Value) : World :=
  wrapped_settle w this false value.

Definition wrapped_reject (w : World) (this : nat) (reason : Value) : World :=
  wrapped_settle w this true reason.

(** Calling [onFulfilled(value)] or [onRejected(error)]: calling
    [undefined] throws a TypeError. *)
Definition call_handler (w : World) (task : nat) (rejected : bool)
    (h : option Handler) (x : Value) : World * Outcome :=
  match h with
  | Some f => (emit (EvHandler task rejected x) w, f x)
  | None => (w, Throws VTypeError)
  end.

(** The two wrappers [then] gives to the base future. *)
Definition then_wrapper (w : World) (task : nat) (rejected : bool) (x : Value)
  : World * Outcome :=
  match tasks w !! task with
  | None => (w, Returns VUndefined)
  | Some T =>
    if decide (_state T ≠ Canceled) then
      call_handler w task rejected
        (if rejected then then_onRejected T else then_onFulfilled T) x
    else (w, Returns VUndefined)
  end.

(** Modelled from the spec: the base future settles the future returned by
    [then] with what the wrapper returns or throws. *)
Definition settle_with (w : World) (task : nat) (o : Outcome) : World :=
  match o with
  | Returns v => base_settle w task false v
  | Throws e => base_settle w task true e
  end.

(** Modelled from the spec: the base future, once the parent has left
    Pending, runs the wrapper registered for the child; a Canceled parent
    that was derived with [then] hands on [undefined]. *)
Definition deliver (w : World) (task : nat) : World :=
  match tasks w !! task with
  | None => w
  | Some T =>
    match canceler T, _state T with
    | ThenCanceler parent _, (Pending | Canceled) =>
      match tasks w !! parent with
      | None => w
      | Some P =>
        match _state P with
        | Pending => w
        | Fulfilled =>
          let '(w', o) := then_wrapper w task false (default VUndefined (result P)) in
          settle_with w' task o
        | Rejected =>
          let '(w', o) := then_wrapper w task true (default VUndefined (result P)) in
          settle_with w' task o
        | Canceled =>
          let '(w', o) := then_wrapper w task false VUndefined in
          settle_with w' task o
        end
      end
    | _, _ => w
    end
  end.

(** Modelled from the spec: user code makes a pending thenable. *)
Definition new_thenable (w : World) : World :=
  mkWorld (tasks w) (thenables w ++ [mkThenable false false []]) (log w).

(** Modelled from the spec: a thenable made by user code settles. *)
Definition settle_thenable (w : World) (th : nat) : World :=
  let mark := fun X =>
    if th_derived X then X else mkThenable true (th_derived X) (th_reactions X) in
  mkWorld (tasks w) (alter mark th (thenables w)) (log w).

(** Modelled from the spec: the oldest reaction of a settled thenable runs.
    [runFinally] gives the value of the thenable [out]; a thenable value is
    adopted, any other settles [out]. *)
Definition react (w : World) (th : nat) : World :=
  match thenables w !! th with
  | None => w
  | Some X =>
    if th_settled X then
      match th_reactions X with
      | [] => w
      | r :: rest =>
        let pop := fun X => mkThenable (th_settled X) (th_derived X) rest in
        let settle_out := fun X => mkThenable true (th_derived X) (th_reactions X) in
        let w0 := mkWorld (tasks w) (alter pop th (thenables w)) (log w) in
        match r with
        | RAdopt out =>
          mkWorld (tasks w0) (alter settle_out out (thenables w0)) (log w0)
        | RFinally t out =>
          match tasks w0 !! t with
          | None => w0
          | Some T =>
            match _finally T with
            | None => w0
            | Some cb =>
              let '(w1, v) := runFinally w0 t cb in
              match v with
              | VThenable th2 =>
                let adopt := fun X => mkThenable (th_settled X) (th_derived X)
                                                 (th_reactions X ++ [RAdopt out]) in
                mkWorld (tasks w1) (alter adopt th2 (thenables w1)) (log w1)
              | _ =>
                mkWorld (tasks w1) (alter settle_out out (thenables w1)) (log w1)
              end
            end
          end
        end
      end
    else w
  end.

(** ** Histories *)

Inductive Op :=
  | OpNew (hook : Outcome)
  | OpThen (t : nat) (onFulfilled onRejected : option Handler)
  | OpFinally (t : nat) (callback : Outcome)
  | OpCancel (t : nat)
  | OpResolve (t : nat) (value : Value)
  | OpReject (t : nat) (reason : Value)
  | OpDeliver (t : nat)
  | OpNewThenable
  | OpSettleThenable (th : nat)
  | OpReact (th : nat).

Definition is_root (w : World) (t : nat) : bool :=
  match canceler <$> tasks w !! t with
  | Some (RootCanceler _ _) => true
  | _ => false
  end.

(** One step of a history. *)
Definition exec (w : World) (op : Op) : World :=
  match op with
  | OpNew hook => fst (new_Task w hook)
  | OpThen t f g => from_option fst w (then_ w t f g)
  | OpFinally t cb => from_option fst w (finally_ w t cb)
  | OpCancel t => after w (Task_cancel w t)
  | OpResolve t v => if is_root w t then wrapped_resolve w t v else w
  | OpReject t e => if is_root w t then wrapped_reject w t e else w
  | OpDeliver t => deliver w t
  | OpNewThenable => new_thenable w
  | OpSettleThenable th => settle_thenable w th
  | OpReact th => react w th
  end.

Definition run (ops : list Op) : World := foldl exec empty_world ops.

(** ** The tree of tasks *)

(** What [_cancel] never changes: every field but [_state]. *)
Definition shape (w : World) : list Task := with_state Pending <$> tasks w.

Definition kids (w : World) (t : nat) : list nat :=
  default [] (children <$> tasks w !! t).

Definition finalizer (w : World) (t : nat) : option Outcome :=
  tasks w !! t ≫= _finally.

(** [desc w t d]: [d] is [t] or is reached from [t] through [children]. *)
Inductive desc (w : World) : nat → nat → Prop :=
  | desc_refl t : desc w t t
  | desc_step t c d : c ∈ kids w t → desc w c d → desc w t d.

(** Worlds built by the constructor, [then] and [finally]: children are
    younger than their parent, are registered once, and the canceler of a
    child is the closure [then] made for it. *)
Record wf (w : World) : Prop := mk_wf {
  wf_range : ∀ t c, c ∈ kids w t → t < c < length (tasks w);
  wf_nodup : ∀ t, NoDup (kids w t);
  wf_child : ∀ t c, c ∈ kids w t →
             canceler <$> tasks w !! c = Some (ThenCanceler t c);
  wf_then : ∀ c p c', canceler <$> tasks w !! c = Some (ThenCanceler p c') →
            c' = c ∧ c ∈ kids w p;
  wf_root : ∀ t s h, canceler <$> tasks w !! t = Some (RootCanceler s h) → s = t;
  wf_noop : ∀ t, canceler <$> tasks w !! t ≠ Some NoopCanceler
}.

(** A Pending task has Pending children only. *)
Definition pending_closed (w : World) : Prop :=
  ∀ t c, c ∈ kids w t → state_of w t = Some Pending → state_of w c = Some Pending.

(** The task an event is about. *)
Definition ev_task (e : Event) : nat :=
  match e with
  | EvHook t | EvPropagate t _ | EvFinally t _ | EvAttach t _ _
  | EvHandler t _ _ | EvResolve t _ _ => t
  end.

(** The events [_cancel] makes about the finalizer of a task. *)
Definition is_finalizer_event (e : Event) : bool :=
  match e with EvFinally _ _ | EvAttach _ _ _ => true | _ => false end.

Definition is_hook_event (e : Event) : bool :=
  match e with EvHook _ => true | _ => false end.

Definition is_handler_event (t : nat) (e : Event) : bool :=
  match e with EvHandler t' _ _ => bool_decide (t' = t) | _ => false end.

Definition is_resolve_event (t : nat) (e : Event) : bool :=
  match e with EvResolve t' _ _ => bool_decide (t' = t) | _ => false end.

(** The events [_cancel] makes; a finalizer it calls sees [Canceled]. *)
Definition propagation_event (e : Event) : Prop :=
  match e with
  | EvPropagate _ _ | EvAttach _ _ _ => True
  | EvFinally _ seen => seen = Canceled
  | _ => False
  end.

(** Number of calls of the handlers given to the [then] that made [t]. *)
Definition handler_calls (t : nat) (l : list Event) : nat :=
  length (filter (λ e, is_handler_event t e = true) l).

(** Number of times resolve or reject of the executor of [t] reached the
    base future. *)
Definition resolve_calls (t : nat) (l : list Event) : nat :=
  length (filter (λ e, is_resolve_event t e = true) l).

(** What one step of a history may add to the log. *)
Definition step_event (w : World) (op : Op) (e : Event) : Prop :=
  match e with
  | EvHandler t _ _ | EvResolve t _ _ => ∃ s, state_of w t = Some s ∧ s ≠ Canceled
  | EvHook _ => ∃ t0, op = OpCancel t0
  | EvFinally _ seen =>
    ((∃ t0, op = OpCancel t0) ∧ seen = Canceled) ∨ ∃ th, op = OpReact th
  | EvPropagate _ _ | EvAttach _ _ _ => True
  end.

(** [plain_path w p q]: [q] is reached from [p] through tasks without
    finalizer ([q] itself may have one). *)
Inductive plain_path (w : World) : nat → nat → Prop :=
  | plain_refl q : plain_path w q q
  | plain_step p c q :
      finalizer w p = None → c ∈ kids w p → plain_path w c q →
      plain_path w p q.

(** The events of [l] about task [t]. *)
Definition about (t : nat) (l : list Event) : list Event :=
  filter (λ e, ev_task e = t) l.

(** Number of calls of the hook given to the constructor of [t]. *)
Definition hook_calls (t : nat) (l : list Event) : nat :=
  length (filter (λ e, e = EvHook t) l).

(** Number of times the finalizer of [t] was called or attached. *)
Definition finalizer_uses (t : nat) (l : list Event) : nat :=
  length (filter (λ e, is_finalizer_event e = true) (about t l)).

(** A run of [_cancel] with the events it adds to the log, newest first:
    [Run w t finallyTask d w']. *)
Inductive Run : World → nat → Value → list Event → World → Prop :=
  | Run_node w t ft T w2 ft' own kd w' :
      tasks w !! t = Some T →
      finally_step (set_state (emit (EvPropagate t ft) w) t Canceled)
                   t (_finally T) ft = (w2, ft') →
      log w2 = own ++ log w →
      RunKids w2 (children T) ft' kd w' →
      Run w t ft (kd ++ own) w'
with RunKids : World → list nat → Value → list Event → World → Prop :=
  | RunKids_nil w ft : RunKids w [] ft [] w
  | RunKids_cons w c cs ft d1 w1 d2 w2 :
      Run w c ft d1 w1 →
      RunKids w1 cs ft d2 w2 →
      RunKids w (c :: cs) ft (d2 ++ d1) w2.

Scheme Run_mut := Minimality for Run Sort Prop
  with RunKids_mut := Minimality for RunKids Sort Prop.

Combined Scheme Run_RunKids_ind from Run_mut, RunKids_mut.

(** Where the cancelation of [t] starts: [then]'s canceler goes up while
    the parent is Pending. *)
Inductive escalates (w : World) : nat → nat → Prop :=
  | esc_root t self hook :
      canceler <$> tasks w !! t = Some (RootCanceler self hook) →
      escalates w t t
  | esc_stop t p s :
      canceler <$> tasks w !! t = Some (ThenCanceler p t) →
      state_of w p = Some s → s ≠ Pending →
      escalates w t t
  | esc_up t p o :
      canceler <$> tasks w !! t = Some (ThenCanceler p t) →
      state_of w p = Some Pending →
      escalates w p o →
      escalates w t o.

(** The call of the canceler of [o] when nothing is left to go up to. *)
Definition fire (w : World) (o : nat) : Completion :=
  match canceler <$> tasks w !! o with
  | Some (RootCanceler self (Throws e)) => Abrupt e (emit (EvHook self) w)
  | Some (RootCanceler self (Returns _)) =>
      of_option (propagate (emit (EvHook self) w) self VUndefined)
  | Some (ThenCanceler _ task) => of_option (propagate w task VUndefined)
  | Some NoopCanceler => Normal w
  | None => Stuck
  end.

(** The events one call of [_cancel] on [t] makes itself, newest first,
    when it is entered with [finallyTask]. *)
Definition node_events (w : World) (t : nat) (finallyTask : Value)
    (l : list Event) : Prop :=
  match finalizer w t with
  | None => l = [EvPropagate t finallyTask]
  | Some cb =>
    if isThenable finallyTask then
      ∃ th out, finallyTask = VThenable th ∧
                l = [EvAttach t th out; EvPropagate t finallyTask]
    else l = [EvFinally t Canceled; EvPropagate t finallyTask]
  end.

(** What a child [c] of [t] is entered with, when [t] was entered with
    [finallyTask]: the same value if [t] has no finalizer, the thenable
    [then] returned if the finalizer had to wait, else what the finalizer
    returned. *)
Definition hands_down (w : World) (d : list Event) (t c : nat)
    (finallyTask : Value) : Prop :=
  match finalizer w t with
  | None => EvPropagate c finallyTask ∈ d
  | Some cb =>
    if isThenable finallyTask then
      ∃ th out, finallyTask = VThenable th ∧ EvAttach t th out ∈ d ∧
                EvPropagate c (VThenable out) ∈ d
    else EvFinally t Canceled ∈ d ∧ EvPropagate c (caught cb) ∈ d
  end.

(** [d] is newest first: an event about a task is never older than an
    event about one of its ancestors. *)
Definition parent_first (w : World) (d : list Event) : Prop :=
  StronglySorted
    (λ e e', ¬ (desc w (ev_task e) (ev_task e') ∧ ev_task e ≠ ev_task e')) d.

(** Children lists of a well-formed world have disjoint subtrees. *)
Definition apart (w : World) (cs : list nat) : Prop :=
  NoDup cs ∧
  ∀ c1 c2 d, c1 ∈ cs → c2 ∈ cs → desc w c1 d → desc w c2 d → c1 = c2.

(** The three ways the canceler of a Pending origin ends. *)
Inductive Fired (w : World) (o : nat) : Completion → Prop :=
  | Fired_thrown e :
      canceler <$> tasks w !! o = Some (RootCanceler o (Throws e)) →
      Fired w o (Abrupt e (emit (EvHook o) w))
  | Fired_root v d w' :
      canceler <$> tasks w !! o = Some (RootCanceler o (Returns v)) →
      Run (emit (EvHook o) w) o VUndefined d w' →
      Fired w o (Normal w')
  | Fired_then p s d w' :
      canceler <$> tasks w !! o = Some (ThenCanceler p o) →
      state_of w p = Some s → s ≠ Pending →
      Run w o VUndefined d w' →
      Fired w o (Normal w').

(** Events are about tasks that exist. *)
Definition log_in_range (w : World) : Prop :=
  ∀ e, e ∈ log w → ev_task e < length (tasks w).

(** What holds in every world a history reaches. *)
Record reached (w : World) : Prop := mk_reached {
  reached_wf : wf w;
  reached_closed : pending_closed w;
  reached_log : log_in_range w
}.

(** ** Cancel hooks that call back *)

(** The hook given to the constructor is the caller's code.  The closure
    the constructor stores calls it first and [this._cancel()] afterwards,
    so while the hook runs its task is still Pending, and the hook can
    call [cancel()], or the [resolve] and [reject] an executor was given,
    before it returns or throws.  [cancel] above is the case of hooks that
    make no such call.  Here one run of a hook is a list of calls followed
    by a return or a throw. *)
Inductive Call :=
  | CallCancel (t : nat)                    (* [t.cancel()] *)
  | CallResolve (t : nat) (value : Value)   (* the [resolve] given to the executor of [t] *)
  | CallReject (t : nat) (reason : Value).  (* the [reject] given to the executor of [t] *)

Record Script := mkScript {
  calls : list Call;
  ending : Outcome
}.

(** What the hooks do: the list at index [t] gives the runs of the hook of
    task [t], its first run first (a hook is a closure and may do
    something else each time).  A run for which nothing is listed makes
    no call and ends as the [Outcome] kept in the canceler says. *)
Definition Hooks : Type := list (list Script).

(** The run of the hook of [t] when it has been called [n] times before. *)
Definition script_of (hs : Hooks) (t n : nat) (hook : Outcome) : Script :=
  default (mkScript [] hook) (hs !! t ≫= (.!! n)).

(** The calls a hook makes, in order; an exception that leaves one of them
    leaves the hook. *)
Fixpoint run_calls (cancel_ : World → nat → Completion) (cs : list Call)
    (w : World) : Completion :=
  match cs with
  | [] => Normal w
  | c :: cs' =>
    match
      match c with
      | CallCancel t => cancel_ w t
      | CallResolve t v =>
          Normal (if is_root w t then wrapped_resolve w t v else w)
      | CallReject t e =>
          Normal (if is_root w t then wrapped_reject w t e else w)
      end
    with
    | Normal w' => run_calls cancel_ cs' w'
    | stop => stop
    end
  end.

(** [cancel()] with hooks that call back: as [cancel], but the closure of
    the constructor, [() => { canceler(); this._cancel(); }], runs the
    calls of the hook between the test of [_state] and [this._cancel()]. *)
Fixpoint cancel_calling (hs : Hooks) (fuel : nat) (w : World) (this : nat)
  : Completion :=
  match fuel with
  | 0 => Stuck
  | S fuel' =>
    match tasks w !! this with
    | None => Stuck
    | Some T =>
      if decide (_state T = Pending) then
        match canceler T with
        | RootCanceler self hook =>
          let script := script_of hs self (hook_calls self (log w)) hook in
          match run_calls (cancel_calling hs fuel') (calls script)
                          (emit (EvHook self) w) with
          | Normal w1 =>
            match ending script with
            | Throws e => Abrupt e w1
            | Returns _ => of_option (propagate w1 self VUndefined)
            end
          | stop => stop
          end
        | ThenCanceler parent task =>
          match state_of w parent with
          | Some Pending => cancel_calling hs fuel' w parent
          | Some _ => of_option (propagate w task VUndefined)
          | None => Stuck
          end
        | NoopCanceler => Normal w
        end
      else Normal w
    end
  end.

(** Every listed run of a hook happens once at most, and between two of
    them [cancel] goes up through fewer tasks than there are. *)
Definition Task_cancel_calling (hs : Hooks) (w : World) (t : nat) : Completion :=
  cancel_calling hs (fuel_of w * S (length (concat hs))) w t.

(** ** Notions for the further properties *)

(** [extends T T']: [T'] has the canceler, the finalizer and the handlers of
    [T], and the children of [T] followed by later ones; state and value
    may differ. *)
Definition extends (T T' : Task) : Prop :=
  canceler T' = canceler T ∧ _finally T' = _finally T ∧
  then_onFulfilled T' = then_onFulfilled T ∧
  then_onRejected T' = then_onRejected T ∧
  children T `prefix_of` children T'.

Definition is_propagate_event (t : nat) (e : Event) : bool :=
  match e with EvPropagate t' _ => bool_decide (t' = t) | _ => false end.

(** Number of times [_cancel] was entered on [t]. *)
Definition entries (t : nat) (l : list Event) : nat :=
  length (filter (λ e, is_propagate_event t e = true) l).

(** No finalizer at or below [t] returns a thenable. *)
Definition plain_results (w : World) (t : nat) : Prop :=
  ∀ i cb, desc w t i → finalizer w i = Some cb → isThenable (caught cb) = false.

(** The events [_cancel] makes when it is entered with a thenable: no
    finalizer is called, and every task is entered with a thenable. *)
Definition waiting_event (e : Event) : Prop :=
  match e with
  | EvPropagate _ ft => isThenable ft = true
  | EvAttach _ _ _ => True
  | _ => False
  end.

(** The events [_cancel] makes when no thenable is involved: nothing is
    attached, and every task is entered with a value that is no thenable. *)
Definition immediate_event (e : Event) : Prop :=
  match e with
  | EvPropagate _ ft => isThenable ft = false
  | EvFinally _ seen => seen = Canceled
  | _ => False
  end.

(** ** Histories used as examples *)

(** A hook that throws, and two calls of [cancel()]. *)
Definition throwing_hook_history : list Op :=
  [OpNew (Throws VTypeError); OpCancel 0; OpCancel 0].

(** The hook of the root throws; below the root a task made by [finally]. *)
Definition aborted_cancel_history : list Op :=
  [OpNew (Throws VTypeError); OpFinally 0 (Returns VUndefined); OpCancel 0].

Definition omitted_onFulfilled_history : list Op :=
  [OpNew (Returns VUndefined); OpResolve 0 (VData 5); OpThen 0 None None;
   OpDeliver 1].

Definition pass_on : Handler := Returns.

Definition omitted_onRejected_history : list Op :=
  [OpNew (Returns VUndefined); OpReject 0 (VData 7);
   OpThen 0 (Some pass_on) None; OpDeliver 1].

(** A root with one child made by [then]. *)
Definition chain_world : World :=
  run [OpNew (Returns VUndefined); OpThen 0 None None].

(** A root with a child made by [finally]. *)
Definition finally_world : World :=
  run [OpNew (Returns VUndefined); OpFinally 0 (Returns (VData 1))].

(** A Fulfilled root. *)
Definition fulfilled_world : World :=
  run [OpNew (Returns VUndefined); OpResolve 0 (VData 1)].


(** A root, a finalizer that throws below it, and a second finalizer. *)
Definition throwing_finalizer_world : World :=
  run [OpNew (Returns VUndefined); OpFinally 0 (Throws VTypeError);
       OpFinally 1 (Returns (VData 1))].

(** A finalizer, a task without finalizer below it, and a finalizer. *)
Definition skipping_world : World :=
  run [OpNew (Returns VUndefined); OpFinally 0 (Returns (VData 3));
       OpThen 1 None None; OpFinally 2 (Returns VUndefined)].

(** The hook of task 0 calls [cancel()] on its own task the first time it
    runs, and returns; when it runs again it only returns. *)
Definition hook_cancels_again : Hooks :=
  [[mkScript [CallCancel 0] (Returns VUndefined)]].

(** The hook of task 0 calls the [resolve] of its own task with 1, and
    returns. *)
Definition hook_resolves : Hooks :=
  [[mkScript [CallResolve 0 (VData 1)] (Returns VUndefined)]].

(** A root alone. *)
Definition root_world : World := run [OpNew (Returns VUndefined)].


(** A root with two children made by [then], in that order. *)
Definition siblings_world : World :=
  run [OpNew (Returns VUndefined); OpThen 0 None None; OpThen 0 None None].

(** * Properties *)

(** Membership in a list that is written out. *)
Ltac elem_cases H :=
  repeat (apply elem_of_cons in H as [H|H]; [try simplify_eq|]);
  try (by apply elem_of_nil in H).

(** ** Lookups after the field updates *)

Lemma shape_lookup w w' t :
  shape w = shape w' →
  with_state Pending <$> tasks w !! t = with_state Pending <$> tasks w' !! t.
Proof.
  unfold shape. intros H. rewrite <- !list_lookup_fmap. by rewrite H.
Qed.

Lemma shape_length w w' :
  shape w = shape w' → length (tasks w) = length (tasks w').
Proof.
  unfold shape. intros H. apply (f_equal length) in H.
  by rewrite !length_fmap in H.
Qed.

Lemma shape_kids w w' t : shape w = shape w' → kids w t = kids w' t.
Proof.
  intros H. apply (shape_lookup _ _ t) in H. unfold kids.
  destruct (tasks w !! t) as [T|], (tasks w' !! t) as [T'|]; simplify_eq/=; try done;
    unfold with_state in *; simplify_eq/=; congruence.
Qed.

Lemma shape_finalizer w w' t :
  shape w = shape w' → finalizer w t = finalizer w' t.
Proof.
  intros H. apply (shape_lookup _ _ t) in H. unfold finalizer.
  destruct (tasks w !! t) as [T|], (tasks w' !! t) as [T'|]; simplify_eq/=; try done;
    unfold with_state in *; simplify_eq/=; congruence.
Qed.

Lemma shape_canceler w w' t :
  shape w = shape w' →
  canceler <$> tasks w !! t = canceler <$> tasks w' !! t.
Proof.
  intros H. apply (shape_lookup _ _ t) in H.
  destruct (tasks w !! t) as [T|], (tasks w' !! t) as [T'|]; simplify_eq/=; try done;
    unfold with_state in *; simplify_eq/=; congruence.
Qed.

Lemma shape_desc w w' t d : shape w = shape w' → desc w t d → desc w' t d.
Proof.
  intros H. induction 1 as [|t c d Hc _ IH]; [constructor|].
  eapply desc_step; [|done]. by rewrite <- (shape_kids w w').
Qed.

Lemma shape_wf w w' : shape w = shape w' → wf w → wf w'.
Proof.
  intros H [H1 H2 H3 H4 H5 H6]. split.
  - intros t c. rewrite <- (shape_kids w w'), <- (shape_length w w') by done. apply H1.
  - intros t. rewrite <- (shape_kids w w') by done. apply H2.
  - intros t c. rewrite <- (shape_kids w w'), <- (shape_canceler w w') by done. apply H3.
  - intros c p c'. rewrite <- (shape_kids w w'), <- (shape_canceler w w') by done. apply H4.
  - intros t s h. rewrite <- (shape_canceler w w') by done. apply H5.
  - intros t. rewrite <- (shape_canceler w w') by done. apply H6.
Qed.

Lemma shape_set_state w t s : shape (set_state w t s) = shape w.
Proof.
  unfold shape, set_state; simpl. apply list_eq; intros i.
  rewrite !list_lookup_fmap. destruct (decide (t = i)) as [->|].
  - rewrite list_lookup_alter_eq. by destruct (tasks w !! i).
  - by rewrite list_lookup_alter_ne.
Qed.

Lemma finally_step_tasks w t fin ft w2 ft' :
  finally_step w t fin ft = (w2, ft') → tasks w2 = tasks w.
Proof.
  unfold finally_step, thenable_then, runFinally. intros H.
  destruct fin; [destruct ft|]; simplify_eq/=; try done;
    by destruct (tasks w !! t).
Qed.

Lemma finally_step_log w t fin ft w2 ft' :
  finally_step w t fin ft = (w2, ft') → ∃ own, log w2 = own ++ log w.
Proof.
  unfold finally_step, thenable_then, runFinally. intros H.
  destruct fin; [destruct ft|]; simplify_eq/=;
    try (destruct (tasks w !! t)); simpl;
    first [by exists [] | by eexists [_]].
Qed.

(** ** Runs of [_cancel] *)

Lemma forEach_RunKids fuel ft :
  (∀ w c w', _cancel fuel w c ft = Some w' → ∃ d, Run w c ft d w') →
  ∀ cs w w', forEach (λ w' child, _cancel fuel w' child ft) cs w = Some w' →
             ∃ d, RunKids w cs ft d w'.
Proof.
  intros IH. induction cs as [|c cs IHcs]; intros w w' H; simpl in H.
  - simplify_eq. eexists. constructor.
  - destruct (_cancel fuel w c ft) as [w1|] eqn:E; [|done].
    destruct (IH _ _ _ E) as [d1 H1].
    destruct (IHcs _ _ H) as [d2 H2].
    eexists. econstructor; eauto.
Qed.

Lemma cancel_Run fuel : ∀ w t ft w',
  _cancel fuel w t ft = Some w' → ∃ d, Run w t ft d w'.
Proof.
  induction fuel as [|fuel IH]; intros w t ft w' H; simpl in H; [done|].
  destruct (tasks w !! t) as [T|] eqn:ET; [|done].
  destruct (finally_step _ t (_finally T) ft) as [w2 ft'] eqn:EF.
  destruct (finally_step_log _ _ _ _ _ _ EF) as [own Hown].
  destruct (forEach_RunKids fuel ft' (λ w c w', IH w c ft' w') _ _ _ H) as [kd Hk].
  exists (kd ++ own ++ [EvPropagate t ft]).
  eapply Run_node; eauto.
  rewrite Hown. simpl. by rewrite <- app_assoc.
Qed.

Lemma Run_shape_log :
  (∀ w t ft d w', Run w t ft d w' → shape w' = shape w ∧ log w' = d ++ log w) ∧
  (∀ w cs ft d w', RunKids w cs ft d w' → shape w' = shape w ∧ log w' = d ++ log w).
Proof.
  apply Run_RunKids_ind.
  - intros w t ft T w2 ft' own kd w' ET EF Hown _ [IHs IHl].
    apply finally_step_tasks in EF as Ht. split.
    + rewrite IHs. unfold shape at 1. rewrite Ht. apply (shape_set_state (emit _ w)).
    + rewrite IHl, Hown. by rewrite app_assoc.
  - done.
  - intros w c cs ft d1 w1 d2 w2 _ [IH1s IH1l] _ [IH2s IH2l]. split.
    + congruence.
    + rewrite IH2l, IH1l. by rewrite app_assoc.
Qed.

Lemma Run_shape w t ft d w' : Run w t ft d w' → shape w' = shape w.
Proof. intros H. by apply Run_shape_log in H as [? _]. Qed.

Lemma Run_log w t ft d w' : Run w t ft d w' → log w' = d ++ log w.
Proof. intros H. by apply Run_shape_log in H as [_ ?]. Qed.

(** A run is determined by where it starts. *)
Lemma Run_deterministic :
  (∀ w t ft d w', Run w t ft d w' → ∀ d2 w2, Run w t ft d2 w2 → d2 = d ∧ w2 = w') ∧
  (∀ w cs ft d w', RunKids w cs ft d w' →
     ∀ d2 w2, RunKids w cs ft d2 w2 → d2 = d ∧ w2 = w').
Proof.
  apply Run_RunKids_ind.
  - intros w t ft T w2 ft' own kd w' ET EF Hown _ IH d2 w3 H.
    inversion H as [? ? ? T2 w2' ft2 own2 kd2 ? ET2 EF2 Hown2 HK2]; subst.
    rewrite ET in ET2; injection ET2 as <-.
    rewrite EF in EF2; injection EF2 as <- <-.
    rewrite Hown in Hown2. apply app_inv_tail in Hown2 as <-.
    by apply IH in HK2 as [-> ->].
  - intros w ft d2 w2 H. by inversion H.
  - intros w c cs ft d1 w1 d2 w2 _ IH1 _ IH2 d3 w3 H.
    inversion H as [|? ? ? ? d1' w1' d2' ? HR HK]; subst.
    apply IH1 in HR as [-> ->]. by apply IH2 in HK as [-> ->].
Qed.

(** ** [_cancel] returns *)

Lemma forEach_total fuel ft w0 (cs : list nat) :
  (∀ w c, shape w = shape w0 → c ∈ cs → is_Some (_cancel fuel w c ft)) →
  ∀ w, shape w = shape w0 →
       is_Some (forEach (λ w' child, _cancel fuel w' child ft) cs w).
Proof.
  induction cs as [|c cs IHcs]; intros Hc w Hw; simpl; [by eexists|].
  destruct (Hc w c Hw) as [w1 E]; [by left|]. rewrite E.
  apply IHcs.
  - intros w2 c2 H2 Hin. apply Hc; [done|by right].
  - apply cancel_Run in E as [d HR]. apply Run_shape in HR. congruence.
Qed.

Lemma cancel_total fuel : ∀ w t ft,
  wf w → t < length (tasks w) → length (tasks w) - t ≤ fuel →
  is_Some (_cancel fuel w t ft).
Proof.
  induction fuel as [|fuel IH]; intros w t ft Hwf Ht Hfuel; [lia|]. simpl.
  destruct (lookup_lt_is_Some_2 _ _ Ht) as [T ET]. rewrite ET.
  destruct (finally_step _ t (_finally T) ft) as [w2 ft'] eqn:EF.
  assert (shape w2 = shape w) as Hs2.
  { unfold shape at 1. rewrite (finally_step_tasks _ _ _ _ _ _ EF).
    apply (shape_set_state (emit _ w)). }
  apply (forEach_total fuel ft' w); [|done].
  intros w3 c Hs3 Hin.
  assert (c ∈ kids w t) as Hk. { unfold kids. by rewrite ET. }
  apply (wf_range _ Hwf) in Hk.
  apply IH.
  - by apply (shape_wf w).
  - rewrite (shape_length w3 w) by done. lia.
  - rewrite (shape_length w3 w) by done. lia.
Qed.

Lemma propagate_total w t ft :
  wf w → t < length (tasks w) → ∃ d w', propagate w t ft = Some w' ∧ Run w t ft d w'.
Proof.
  intros Hwf Ht. unfold propagate, fuel_of.
  destruct (cancel_total (S (length (tasks w))) w t ft) as [w' E]; [done|done|lia|].
  destruct (cancel_Run _ _ _ _ _ E) as [d HR]. eauto.
Qed.

(** ** What [_cancel] does to the tasks *)

Lemma canceled_twice (o : option Task) :
  with_state Canceled <$> (with_state Canceled <$> o) = with_state Canceled <$> o.
Proof. by destruct o. Qed.

Lemma set_state_lookup w t s i :
  tasks (set_state w t s) !! i =
  if decide (i = t) then with_state s <$> tasks w !! i else tasks w !! i.
Proof.
  unfold set_state; simpl. case_decide as E.
  - subst. apply list_lookup_alter_eq.
  - by apply list_lookup_alter_ne.
Qed.

Lemma kids_lookup w t T : tasks w !! t = Some T → kids w t = children T.
Proof. unfold kids. by intros ->. Qed.

Lemma desc_child w t c : c ∈ kids w t → desc w t c.
Proof. intros H. eapply desc_step; [done|constructor]. Qed.

Lemma desc_trans w a b c : desc w a b → desc w b c → desc w a c.
Proof.
  induction 1 as [|a k b Hk _ IH]; [done|].
  intros H. eapply desc_step; [done|]. by apply IH.
Qed.

Lemma Run_tasks :
  (∀ w t ft d w', Run w t ft d w' →
     (∀ i, tasks w' !! i = tasks w !! i ∨
           (desc w t i ∧ tasks w' !! i = with_state Canceled <$> tasks w !! i)) ∧
     (∀ i, desc w t i → tasks w' !! i = with_state Canceled <$> tasks w !! i)) ∧
  (∀ w cs ft d w', RunKids w cs ft d w' →
     (∀ i, tasks w' !! i = tasks w !! i ∨
           ((∃ c, c ∈ cs ∧ desc w c i) ∧
            tasks w' !! i = with_state Canceled <$> tasks w !! i)) ∧
     (∀ i c, c ∈ cs → desc w c i →
             tasks w' !! i = with_state Canceled <$> tasks w !! i)).
Proof.
  apply Run_RunKids_ind.
  - intros w t ft T w2 ft' own kd w' ET EF Hown HK [IHa IHb].
    assert (shape w2 = shape w) as Hs.
    { unfold shape at 1. rewrite (finally_step_tasks _ _ _ _ _ _ EF).
      apply (shape_set_state (emit _ w)). }
    assert (∀ i, tasks w2 !! i =
                 if decide (i = t) then with_state Canceled <$> tasks w !! i
                 else tasks w !! i) as H2.
    { intros i. rewrite (finally_step_tasks _ _ _ _ _ _ EF).
      apply (set_state_lookup (emit _ w)). }
    split.
    + intros i. specialize (H2 i).
      destruct (IHa i) as [E|[(c & Hc & Hd) E]]; rewrite E, H2.
      * case_decide; [subst; right; split; [constructor|done]|by left].
      * right. split.
        { eapply desc_step; [by erewrite kids_lookup|]. by apply (shape_desc w2). }
        case_decide; [by rewrite canceled_twice|done].
    + intros i Hd. specialize (H2 i). inversion Hd as [|? c ? Hc Hd']; subst.
      * destruct (IHa i) as [E|[_ E]]; rewrite E, H2, decide_True by done;
          [done|by rewrite canceled_twice].
      * rewrite (IHb i c), H2.
        { case_decide; [by rewrite canceled_twice|done]. }
        { by erewrite <- kids_lookup. }
        { by apply (shape_desc w). }
  - intros w ft. split; [by left|]. intros i c Hc. by apply elem_of_nil in Hc.
  - intros w c cs ft d1 w1 d2 w2 HR [IH1a IH1b] HK [IH2a IH2b].
    apply Run_shape in HR as Hs. split.
    + intros i.
      destruct (IH2a i) as [E2|[(c' & Hc' & Hd') E2]]; rewrite E2.
      * destruct (IH1a i) as [E1|[Hd E1]]; rewrite E1; [by left|].
        right. split; [|done]. exists c. split; [by left|done].
      * right. split.
        { exists c'. split; [by right|]. by apply (shape_desc w1). }
        destruct (IH1a i) as [E1|[Hd E1]]; rewrite E1; [done|].
        by rewrite canceled_twice.
    + intros i c' Hc' Hd. apply elem_of_cons in Hc' as [->|Hc'].
      * rewrite <- (IH1b i Hd).
        destruct (IH2a i) as [E2|[_ E2]]; rewrite E2; [done|].
        by rewrite (IH1b i Hd), canceled_twice.
      * rewrite (IH2b i c' Hc') by (by apply (shape_desc w)).
        destruct (IH1a i) as [E1|[_ E1]]; rewrite E1; [done|].
        by rewrite canceled_twice.
Qed.

Lemma Run_frame w t ft d w' i :
  Run w t ft d w' → ¬ desc w t i → tasks w' !! i = tasks w !! i.
Proof.
  intros H Hn. apply Run_tasks in H as [H _].
  by destruct (H i) as [?|[? _]].
Qed.

Lemma Run_canceled w t ft d w' i :
  Run w t ft d w' → desc w t i →
  tasks w' !! i = with_state Canceled <$> tasks w !! i.
Proof. intros H. apply Run_tasks in H as [_ H]. apply H. Qed.

(** Every task of the subtree exists once [_cancel] has returned. *)
Lemma Run_desc_exists :
  (∀ w t ft d w', Run w t ft d w' → ∀ i, desc w t i → is_Some (tasks w !! i)) ∧
  (∀ w cs ft d w', RunKids w cs ft d w' →
     ∀ i c, c ∈ cs → desc w c i → is_Some (tasks w !! i)).
Proof.
  apply Run_RunKids_ind.
  - intros w t ft T w2 ft' own kd w' ET EF Hown HK IH i Hd.
    assert (shape w2 = shape w) as Hs.
    { unfold shape at 1. rewrite (finally_step_tasks _ _ _ _ _ _ EF).
      apply (shape_set_state (emit _ w)). }
    inversion Hd as [|? c ? Hc Hd']; subst; [by eexists|].
    erewrite kids_lookup in Hc by done.
    apply (shape_desc w w2) in Hd'; [|done].
    destruct (IH i c Hc Hd') as [T' E].
    apply (f_equal (fmap (with_state Pending))) in E.
    rewrite (shape_lookup w2 w) in E by done.
    destruct (tasks w !! i); [by eexists|done].
  - intros w ft i c Hc. by apply elem_of_nil in Hc.
  - intros w c cs ft d1 w1 d2 w2 HR IH1 HK IH2 i c' Hc' Hd.
    apply elem_of_cons in Hc' as [->|Hc']; [by apply IH1|].
    apply Run_shape in HR as Hs.
    apply (shape_desc w w1) in Hd; [|done].
    destruct (IH2 i c' Hc' Hd) as [T' E].
    apply (f_equal (fmap (with_state Pending))) in E.
    rewrite (shape_lookup w1 w) in E by done.
    destruct (tasks w !! i); [by eexists|done].
Qed.

Lemma Run_state_canceled w t ft d w' i :
  Run w t ft d w' → desc w t i → state_of w' i = Some Canceled.
Proof.
  intros HR Hd. unfold state_of. rewrite (Run_canceled _ _ _ _ _ _ HR Hd).
  by destruct (proj1 Run_desc_exists _ _ _ _ _ HR i Hd) as [T ->].
Qed.

(** ** The events of a run *)

Lemma own_events w t T ft w2 ft' own :
  tasks w !! t = Some T →
  finally_step (set_state (emit (EvPropagate t ft) w) t Canceled)
               t (_finally T) ft = (w2, ft') →
  log w2 = own ++ log w →
  node_events w t ft own ∧
  match _finally T with
  | None => ft' = ft
  | Some cb =>
    if isThenable ft then
      ∃ th out, ft = VThenable th ∧ ft' = VThenable out ∧ EvAttach t th out ∈ own
    else ft' = caught cb
  end.
Proof.
  intros ET EF Hown. unfold node_events, finalizer. rewrite ET; simpl.
  unfold finally_step in EF. destruct (_finally T) as [cb|].
  - destruct (isThenable ft) eqn:Eth.
    + destruct ft; try done. simpl in EF. injection EF as <- <-.
      simpl in Hown.
      change (?a :: ?b :: log w) with ([a; b] ++ log w) in Hown.
      apply app_inv_tail in Hown as <-.
      split; eexists _, _; repeat split; by left.
    + unfold runFinally in EF.
      rewrite (set_state_lookup (emit _ w)), decide_True in EF by done.
      simpl in EF. rewrite ET in EF. simpl in EF. injection EF as <- <-.
      simpl in Hown.
      change (?a :: ?b :: log w) with ([a; b] ++ log w) in Hown.
      by apply app_inv_tail in Hown as <-.
  - injection EF as <- <-. simpl in Hown.
    change (?a :: log w) with ([a] ++ log w) in Hown.
    by apply app_inv_tail in Hown as <-.
Qed.

Lemma node_events_about w t ft l e :
  node_events w t ft l → e ∈ l → ev_task e = t.
Proof.
  unfold node_events. intros H He.
  destruct (finalizer w t); [destruct (isThenable ft)|].
  - destruct H as (th & out & -> & ->). by elem_cases He.
  - subst. by elem_cases He.
  - subst. by elem_cases He.
Qed.

Lemma node_events_shape w w' t ft l :
  shape w = shape w' → node_events w t ft l → node_events w' t ft l.
Proof. intros H. unfold node_events. by rewrite (shape_finalizer w w'). Qed.

Lemma Run_events_desc :
  (∀ w t ft d w', Run w t ft d w' → ∀ e, e ∈ d → desc w t (ev_task e)) ∧
  (∀ w cs ft d w', RunKids w cs ft d w' →
     ∀ e, e ∈ d → ∃ c, c ∈ cs ∧ desc w c (ev_task e)).
Proof.
  apply Run_RunKids_ind.
  - intros w t ft T w2 ft' own kd w' ET EF Hown HK IH e He.
    assert (shape w2 = shape w) as Hs.
    { unfold shape at 1. rewrite (finally_step_tasks _ _ _ _ _ _ EF).
      apply (shape_set_state (emit _ w)). }
    destruct (own_events _ _ _ _ _ _ _ ET EF Hown) as [Hn _].
    apply elem_of_app in He as [He|He].
    + destruct (IH e He) as (c & Hc & Hd).
      eapply desc_step; [by erewrite kids_lookup|by apply (shape_desc w2)].
    + rewrite (node_events_about _ _ _ _ _ Hn He). constructor.
  - intros w ft e He. by apply elem_of_nil in He.
  - intros w c cs ft d1 w1 d2 w2 HR IH1 HK IH2 e He.
    apply Run_shape in HR as Hs.
    apply elem_of_app in He as [He|He].
    + destruct (IH2 e He) as (c' & Hc' & Hd). exists c'.
      split; [by right|by apply (shape_desc w1)].
    + exists c. split; [by left|by apply IH1].
Qed.

(** ** Well-formed trees *)

Lemma desc_le w a b : wf w → desc w a b → a ≤ b.
Proof.
  intros Hwf. induction 1 as [|a c b Hc _ IH]; [done|].
  apply (wf_range _ Hwf) in Hc. lia.
Qed.

Lemma desc_kid_lt w t c d : wf w → c ∈ kids w t → desc w c d → t < d.
Proof.
  intros Hwf Hc Hd. apply (wf_range _ Hwf) in Hc.
  apply (desc_le _ _ _ Hwf) in Hd. lia.
Qed.

Lemma desc_inv_r w a b :
  desc w a b → a = b ∨ ∃ p, desc w a p ∧ b ∈ kids w p.
Proof.
  induction 1 as [|a c b Hc Hd IH]; [by left|]. right.
  destruct IH as [->|(p & Hp & Hb)].
  - exists a. split; [constructor|done].
  - exists p. split; [|done]. by eapply desc_step.
Qed.

Lemma kids_parent_unique w p q c :
  wf w → c ∈ kids w p → c ∈ kids w q → p = q.
Proof.
  intros Hwf Hp Hq.
  apply (wf_child _ Hwf) in Hp. apply (wf_child _ Hwf) in Hq. congruence.
Qed.

Lemma desc_linear w a b d :
  wf w → desc w a d → desc w b d → desc w a b ∨ desc w b a.
Proof.
  intros Hwf Ha. revert b. induction Ha as [a|a k d Hk Hd IH]; intros b Hb.
  - by right.
  - destruct (IH b Hb) as [H|H].
    + left. by eapply desc_step.
    + apply desc_inv_r in H as [->|(p & Hp & Hkp)].
      * left. by apply desc_child.
      * rewrite (kids_parent_unique w a p k) by done. by right.
Qed.

Lemma siblings_disjoint w p c1 c2 d :
  wf w → c1 ∈ kids w p → c2 ∈ kids w p → desc w c1 d → desc w c2 d → c1 = c2.
Proof.
  intros Hwf H1 H2 Hd1 Hd2.
  assert (∀ a b, a ∈ kids w p → b ∈ kids w p → desc w a b → a = b) as Hab.
  { intros a b Ha Hb Hd. apply desc_inv_r in Hd as [->|(q & Hq & Hbq)]; [done|].
    rewrite <- (kids_parent_unique w p q b) in Hq by done.
    apply (desc_le _ _ _ Hwf) in Hq. apply (wf_range _ Hwf) in Ha. lia. }
  destruct (desc_linear w c1 c2 d Hwf Hd1 Hd2) as [H|H].
  - by apply Hab.
  - symmetry. by apply Hab.
Qed.

(** ** Each task of the subtree is visited once *)

Lemma about_app t l1 l2 : about t (l1 ++ l2) = about t l1 ++ about t l2.
Proof. apply filter_app. Qed.

Lemma about_none t (l : list Event) :
  (∀ e, e ∈ l → ev_task e ≠ t) → about t l = [].
Proof.
  induction l as [|e l IH]; intros H; [done|]. unfold about.
  rewrite filter_cons_False by (apply H; by left).
  apply IH. intros e' He'. apply H. by right.
Qed.

Lemma about_all t (l : list Event) :
  (∀ e, e ∈ l → ev_task e = t) → about t l = l.
Proof.
  induction l as [|e l IH]; intros H; [done|]. unfold about.
  rewrite filter_cons_True by (apply H; by left). f_equal.
  apply IH. intros e' He'. apply H. by right.
Qed.

Lemma step_shape w t ft fin w2 ft' :
  finally_step (set_state (emit (EvPropagate t ft) w) t Canceled) t fin ft = (w2, ft') →
  shape w2 = shape w.
Proof.
  intros EF. unfold shape at 1. rewrite (finally_step_tasks _ _ _ _ _ _ EF).
  apply (shape_set_state (emit _ w)).
Qed.

Lemma apart_kids w t : wf w → apart w (kids w t).
Proof.
  intros Hwf. split; [apply (wf_nodup _ Hwf)|].
  intros c1 c2 d H1 H2. by apply siblings_disjoint with t.
Qed.

Lemma apart_tail w c cs : apart w (c :: cs) → apart w cs.
Proof.
  intros [Hnd H]. split; [by apply NoDup_cons in Hnd as [_ ?]|].
  intros c1 c2 d H1 H2. apply H; by right.
Qed.

Lemma apart_head w c cs c' d :
  apart w (c :: cs) → c' ∈ cs → desc w c d → desc w c' d → False.
Proof.
  intros [Hnd H] Hc' Hd Hd'. apply NoDup_cons in Hnd as [Hnotin _].
  apply Hnotin. rewrite (H c c' d); [done|by left|by right|done|done].
Qed.

Lemma apart_shape w w' cs : shape w = shape w' → apart w cs → apart w' cs.
Proof.
  intros Hs [Hnd H]. split; [done|].
  intros c1 c2 d H1 H2 Hd1 Hd2. symmetry in Hs.
  apply (H c1 c2 d); eauto using shape_desc.
Qed.

Lemma Run_about :
  (∀ w t ft d w', Run w t ft d w' → wf w →
     ∀ F, desc w t F →
          ∃ ftF, node_events w F ftF (about F d) ∧ (F = t → ftF = ft)) ∧
  (∀ w cs ft d w', RunKids w cs ft d w' → wf w → apart w cs →
     ∀ F c, c ∈ cs → desc w c F → ∃ ftF, node_events w F ftF (about F d)).
Proof.
  apply Run_RunKids_ind.
  - intros w t ft T w2 ft' own kd w' ET EF Hown HK IH Hwf F Hd.
    pose proof (step_shape _ _ _ _ _ _ EF) as Hs.
    destruct (own_events _ _ _ _ _ _ _ ET EF Hown) as [Hn _].
    rewrite about_app.
    inversion Hd as [|? c ? Hc Hd']; subst.
    + exists ft. split; [|done].
      rewrite about_none, (about_all _ own); [done| |].
      * intros e. by apply node_events_about with w ft.
      * intros e He Heq.
        destruct (proj2 Run_events_desc _ _ _ _ _ HK e He) as (c & Hc & Hdc).
        apply (shape_desc w2 w) in Hdc; [|done].
        erewrite <- kids_lookup in Hc by done.
        pose proof (desc_kid_lt _ _ _ _ Hwf Hc Hdc). lia.
    + pose proof (desc_kid_lt _ _ _ _ Hwf Hc Hd') as Hlt.
      rewrite (about_none F own), app_nil_r.
      * destruct (IH (shape_wf w w2 (eq_sym Hs) Hwf)) with F c as [ftF HF].
        { apply (apart_shape w); [done|].
          erewrite <- kids_lookup by done. by apply apart_kids. }
        { by erewrite <- kids_lookup. }
        { by apply (shape_desc w). }
        exists ftF. split; [by apply (node_events_shape w2)|lia].
      * intros e He. rewrite (node_events_about _ _ _ _ _ Hn He). lia.
  - intros w ft _ _ F c Hc. by apply elem_of_nil in Hc.
  - intros w c cs ft d1 w1 d2 w2 HR IH1 HK IH2 Hwf Hap F c' Hc' Hd.
    apply Run_shape in HR as Hs. rewrite about_app.
    apply elem_of_cons in Hc' as [->|Hc'].
    + destruct (IH1 Hwf F Hd) as (ftF & HF & _). exists ftF.
      rewrite about_none; [done|].
      intros e He Heq.
      destruct (proj2 Run_events_desc _ _ _ _ _ HK e He) as (c2 & Hc2 & Hdc).
      apply (shape_desc w1 w) in Hdc; [|done]. rewrite Heq in Hdc.
      by apply (apart_head w c cs c2 F).
    + destruct (IH2 (shape_wf w w1 (eq_sym Hs) Hwf)) with F c' as [ftF HF].
      { apply (apart_shape w); [done|]. by apply apart_tail with c. }
      { done. }
      { by apply (shape_desc w). }
      exists ftF. rewrite (about_none F d1), app_nil_r.
      * by apply (node_events_shape w1).
      * intros e He Heq.
        pose proof (proj1 Run_events_desc _ _ _ _ _ HR e He) as Hdc.
        rewrite Heq in Hdc. by apply (apart_head w c cs c' F).
Qed.

Lemma entries_about i (l : list Event) : entries i (about i l) = entries i l.
Proof.
  unfold entries, about. induction l as [|e l IH]; [done|].
  destruct (decide (ev_task e = i)) as [E|E].
  - rewrite (filter_cons_True (λ e, ev_task e = i)) by done.
    rewrite !filter_cons. case_decide; simpl; by rewrite IH.
  - rewrite (filter_cons_False (λ e, ev_task e = i)) by done.
    rewrite (filter_cons_False (λ e, is_propagate_event i e = true)); [done|].
    intros Hp. destruct e; try done. simpl in *.
    by apply bool_decide_eq_true in Hp.
Qed.

Lemma node_events_entries w i fi l : node_events w i fi l → entries i l = 1.
Proof.
  unfold node_events, entries.
  destruct (finalizer w i); [destruct (isThenable fi)|].
  - intros (th & out & _ & ->).
    rewrite filter_cons_False by done.
    rewrite filter_cons_True by (simpl; by apply bool_decide_eq_true).
    done.
  - intros ->.
    rewrite filter_cons_False by done.
    rewrite filter_cons_True by (simpl; by apply bool_decide_eq_true).
    done.
  - intros ->.
    rewrite filter_cons_True by (simpl; by apply bool_decide_eq_true).
    done.
Qed.

(** The one entry among the events of a task says what it was entered with. *)
Lemma node_events_value w i fi l fp :
  node_events w i fi l → EvPropagate i fp ∈ l → fp = fi.
Proof.
  unfold node_events. intros H He.
  destruct (finalizer w i); [destruct (isThenable fi)|].
  - destruct H as (th & out & -> & ->). by elem_cases He.
  - subst. by elem_cases He.
  - subst. by elem_cases He.
Qed.

(** ** Parents before children *)

Lemma StronglySorted_mono {A} (R R' : A → A → Prop) l :
  (∀ x y, R x y → R' x y) → StronglySorted R l → StronglySorted R' l.
Proof.
  intros HR. induction 1 as [|x l _ IH Hx]; constructor; [done|].
  eapply Forall_impl; [done|]. intros y. apply HR.
Qed.

Lemma parent_first_shape w w' d :
  shape w = shape w' → parent_first w d → parent_first w' d.
Proof.
  intros Hs. apply StronglySorted_mono. intros e e' H [Hd Hne].
  apply H. split; [|done]. by apply (shape_desc w').
Qed.

Lemma parent_first_same w t (l : list Event) :
  (∀ e, e ∈ l → ev_task e = t) → parent_first w l.
Proof.
  induction l as [|e l IH]; intros H; [constructor|].
  constructor.
  - apply IH. intros e' He'. apply H. by right.
  - apply Forall_forall. intros e' He' [_ Hne]. apply Hne.
    rewrite (H e), (H e'); [done|by right|by left].
Qed.

Lemma Run_parent_first :
  (∀ w t ft d w', Run w t ft d w' → wf w → parent_first w d) ∧
  (∀ w cs ft d w', RunKids w cs ft d w' → wf w → apart w cs → parent_first w d).
Proof.
  apply Run_RunKids_ind.
  - intros w t ft T w2 ft' own kd w' ET EF Hown HK IH Hwf.
    pose proof (step_shape _ _ _ _ _ _ EF) as Hs.
    destruct (own_events _ _ _ _ _ _ _ ET EF Hown) as [Hn _].
    apply StronglySorted_app. split; [|split].
    + intros e e' He He' [Hd Hne].
      rewrite (node_events_about _ _ _ _ _ Hn He') in *.
      destruct (proj2 Run_events_desc _ _ _ _ _ HK e He) as (c & Hc & Hdc).
      apply (shape_desc w2 w) in Hdc; [|done].
      erewrite <- kids_lookup in Hc by done.
      pose proof (desc_kid_lt _ _ _ _ Hwf Hc Hdc).
      apply (desc_le _ _ _ Hwf) in Hd. lia.
    + apply (parent_first_shape w2); [done|].
      apply IH; [by apply (shape_wf w)|].
      apply (apart_shape w); [done|].
      erewrite <- kids_lookup by done. by apply apart_kids.
    + apply parent_first_same with t. intros e.
      by apply node_events_about with w ft.
  - constructor.
  - intros w c cs ft d1 w1 d2 w2 HR IH1 HK IH2 Hwf Hap.
    apply Run_shape in HR as Hs.
    apply StronglySorted_app. split; [|split].
    + intros e e' He He' [Hd Hne].
      destruct (proj2 Run_events_desc _ _ _ _ _ HK e He) as (c2 & Hc2 & Hdc).
      apply (shape_desc w1 w) in Hdc; [|done].
      pose proof (proj1 Run_events_desc _ _ _ _ _ HR e' He') as Hdc'.
      apply (apart_head w c cs c2 (ev_task e')); [done..|].
      by apply desc_trans with (ev_task e).
    + apply (parent_first_shape w1); [done|].
      apply IH2; [by apply (shape_wf w)|].
      apply (apart_shape w); [done|]. by apply apart_tail with c.
    + by apply IH1.
Qed.

(** ** What is handed down *)

Lemma hands_down_mono w w' d d' t c ft :
  shape w = shape w' → (∀ e, e ∈ d → e ∈ d') →
  hands_down w d t c ft → hands_down w' d' t c ft.
Proof.
  intros Hs Hsub. unfold hands_down. rewrite (shape_finalizer w w') by done.
  destruct (finalizer w' t); [destruct (isThenable ft)|].
  - intros (th & out & -> & H1 & H2). eexists _, _. eauto.
  - intros [H1 H2]. eauto.
  - eauto.
Qed.

Lemma Run_hands_down :
  (∀ w t ft d w', Run w t ft d w' →
     EvPropagate t ft ∈ d ∧
     ∀ p c fp, c ∈ kids w p → EvPropagate p fp ∈ d → hands_down w d p c fp) ∧
  (∀ w cs ft d w', RunKids w cs ft d w' →
     (∀ c, c ∈ cs → EvPropagate c ft ∈ d) ∧
     ∀ p c fp, c ∈ kids w p → EvPropagate p fp ∈ d → hands_down w d p c fp).
Proof.
  apply Run_RunKids_ind.
  - intros w t ft T w2 ft' own kd w' ET EF Hown HK [IHa IHb].
    pose proof (step_shape _ _ _ _ _ _ EF) as Hs.
    destruct (own_events _ _ _ _ _ _ _ ET EF Hown) as [Hn Hft].
    assert (EvPropagate t ft ∈ own) as Hp.
    { unfold node_events in Hn.
      destruct (finalizer w t); [destruct (isThenable ft)|].
      - destruct Hn as (? & ? & _ & ->). right; by left.
      - subst. right; by left.
      - subst. by left. }
    split; [apply elem_of_app; by right|].
    intros p c fp Hc He. apply elem_of_app in He as [He|He].
    + apply (hands_down_mono w2 w kd); [done| |].
      * intros e ?. apply elem_of_app. by left.
      * apply IHb; [|done]. by rewrite (shape_kids w2 w).
    + assert (p = t ∧ fp = ft) as [-> ->].
      { unfold node_events in Hn.
        destruct (finalizer w t); [destruct (isThenable ft)|].
        - destruct Hn as (? & ? & _ & ->). by elem_cases He.
        - subst. by elem_cases He.
        - subst. by elem_cases He. }
      erewrite kids_lookup in Hc by done.
      specialize (IHa c Hc).
      unfold hands_down, finalizer. rewrite ET. simpl.
      unfold node_events, finalizer in Hn. rewrite ET in Hn. simpl in Hn.
      destruct (_finally T) as [cb|]; [destruct (isThenable ft)|].
      * destruct Hft as (th & out & -> & -> & Hat).
        exists th, out. split; [done|]. split; apply elem_of_app; [by right|by left].
      * subst. split; apply elem_of_app; [right|by left]. by left.
      * subst. apply elem_of_app. by left.
  - intros w ft. split; [intros c Hc|intros p c fp _ He]; by apply elem_of_nil in Hc || by apply elem_of_nil in He.
  - intros w c cs ft d1 w1 d2 w2 HR [IH1a IH1b] HK [IH2a IH2b].
    apply Run_shape in HR as Hs. split.
    + intros c' Hc'. apply elem_of_app. apply elem_of_cons in Hc' as [->|Hc'].
      * by right.
      * left. by apply IH2a.
    + intros p c' fp Hc' He. apply elem_of_app in He as [He|He].
      * apply (hands_down_mono w1 w d2); [done| |].
        { intros e ?. apply elem_of_app. by left. }
        apply IH2b; [|done]. by rewrite (shape_kids w1 w).
      * apply (hands_down_mono w w d1); [done| |].
        { intros e ?. apply elem_of_app. by right. }
        by apply IH1b.
Qed.

(** ** [cancel] goes up, then [_cancel] goes down *)

Lemma escalates_desc w t o : wf w → escalates w t o → desc w o t.
Proof.
  intros Hwf. induction 1 as [| |t p o Hk Hp _ IH]; [constructor..|].
  apply desc_trans with p; [done|]. apply desc_child.
  by apply (wf_then _ Hwf) in Hk as [_ ?].
Qed.

Lemma escalates_pending w t o :
  state_of w t = Some Pending → escalates w t o → state_of w o = Some Pending.
Proof. intros Ht. induction 1; auto. Qed.

Lemma cancel_fire fuel : ∀ w t,
  wf w → state_of w t = Some Pending → t < fuel →
  ∃ o, escalates w t o ∧ cancel fuel w t = fire w o.
Proof.
  induction fuel as [|fuel IH]; intros w t Hwf Hst Hlt; [lia|]. simpl.
  unfold state_of in Hst.
  destruct (tasks w !! t) as [T|] eqn:ET; [|done]. simpl in Hst.
  injection Hst as Hst. rewrite decide_True by done.
  destruct (canceler T) as [self hook|parent task|] eqn:EK.
  - assert (canceler <$> tasks w !! t = Some (RootCanceler self hook)) as Hk
      by (by rewrite ET; simpl; rewrite EK).
    pose proof (wf_root _ Hwf _ _ _ Hk) as ->.
    exists t. split; [by eapply esc_root|].
    unfold fire. by rewrite Hk.
  - assert (canceler <$> tasks w !! t = Some (ThenCanceler parent task)) as Hk
      by (by rewrite ET; simpl; rewrite EK).
    destruct (wf_then _ Hwf _ _ _ Hk) as [-> Hin].
    pose proof (wf_range _ Hwf _ _ Hin) as Hr.
    destruct (state_of w parent) as [s|] eqn:Ep.
    + destruct (decide (s = Pending)) as [->|Hs].
      * destruct (IH w parent Hwf Ep) as (o & Ho & E); [lia|].
        exists o. split; [by eapply esc_up|done].
      * exists t. split; [by eapply esc_stop|].
        unfold fire. rewrite Hk. by destruct s.
    + unfold state_of in Ep.
      destruct (lookup_lt_is_Some_2 (tasks w) parent) as [P EP]; [lia|].
      by rewrite EP in Ep.
  - exfalso. apply (wf_noop _ Hwf t). by rewrite ET; simpl; rewrite EK.
Qed.

Lemma state_of_lt w t s : state_of w t = Some s → t < length (tasks w).
Proof.
  unfold state_of. intros H. apply lookup_lt_is_Some.
  destruct (tasks w !! t); [by eexists|done].
Qed.

Lemma Task_cancel_fire w t :
  wf w → state_of w t = Some Pending →
  ∃ o, escalates w t o ∧ Task_cancel w t = fire w o.
Proof.
  intros Hwf Hst. apply cancel_fire; [done..|].
  apply state_of_lt in Hst. unfold fuel_of. lia.
Qed.

Lemma cancel_not_pending fuel w t s :
  state_of w t = Some s → s ≠ Pending → cancel (S fuel) w t = Normal w.
Proof.
  unfold state_of. intros Hst Hs. simpl.
  destruct (tasks w !! t) as [T|]; [|done]. simpl in Hst. injection Hst as ->.
  by rewrite decide_False.
Qed.

Lemma wf_emit e w : wf w → wf (emit e w).
Proof. by apply shape_wf. Qed.

Lemma escalates_stop w t o :
  escalates w t o →
  (∃ self hook, canceler <$> tasks w !! o = Some (RootCanceler self hook)) ∨
  (∃ p s, canceler <$> tasks w !! o = Some (ThenCanceler p o) ∧
          state_of w p = Some s ∧ s ≠ Pending).
Proof. induction 1; eauto 8. Qed.

Lemma fire_Fired w t o :
  wf w → escalates w t o → Fired w o (fire w o).
Proof.
  intros Hwf He. apply escalates_stop in He.
  assert (o < length (tasks w)) as Ho.
  { apply lookup_lt_is_Some.
    destruct He as [(? & ? & H)|(? & ? & H & _)];
      by destruct (tasks w !! o); [eexists|]. }
  unfold fire.
  destruct He as [(self & hook & Hk)|(p & s & Hk & Hs & Hne)]; rewrite Hk.
  - pose proof (wf_root _ Hwf _ _ _ Hk) as ->. destruct hook as [v|e].
    + destruct (propagate_total (emit (EvHook o) w) o VUndefined)
        as (d & w' & -> & HR); [by apply wf_emit|done|].
      simpl. by eapply Fired_root.
    + by apply Fired_thrown.
  - destruct (propagate_total w o VUndefined) as (d & w' & -> & HR); [done..|].
    simpl. by eapply Fired_then.
Qed.

Lemma Task_cancel_Fired w t :
  wf w → state_of w t = Some Pending →
  ∃ o, escalates w t o ∧ desc w o t ∧ state_of w o = Some Pending ∧
       Fired w o (Task_cancel w t).
Proof.
  intros Hwf Hst. destruct (Task_cancel_fire w t Hwf Hst) as (o & He & ->).
  exists o. split; [done|]. split; [by apply escalates_desc|].
  split; [by apply escalates_pending with t|]. by apply fire_Fired with t.
Qed.

(** ** Worlds reached by histories *)

Lemma wf_same_tree w w' :
  length (tasks w) = length (tasks w') →
  (∀ t, kids w t = kids w' t) →
  (∀ t, canceler <$> tasks w !! t = canceler <$> tasks w' !! t) →
  wf w → wf w'.
Proof.
  intros Hl Hk Hc [H1 H2 H3 H4 H5 H6]. split.
  - intros t c. rewrite <- Hk, <- Hl. apply H1.
  - intros t. rewrite <- Hk. apply H2.
  - intros t c. rewrite <- Hk, <- Hc. apply H3.
  - intros c p c'. rewrite <- Hk, <- Hc. apply H4.
  - intros t s h. rewrite <- Hc. apply H5.
  - intros t. rewrite <- Hc. apply H6.
Qed.

Lemma alter_kids (f : Task → Task) t (l : list Task) i :
  (∀ T, children (f T) = children T) →
  default [] (children <$> alter f t l !! i) = default [] (children <$> l !! i).
Proof.
  intros Hf. destruct (decide (t = i)) as [->|].
  - rewrite list_lookup_alter_eq. destruct (l !! i); simpl; [by rewrite Hf|done].
  - by rewrite list_lookup_alter_ne.
Qed.

Lemma alter_canceler (f : Task → Task) t (l : list Task) i :
  (∀ T, canceler (f T) = canceler T) →
  canceler <$> alter f t l !! i = canceler <$> l !! i.
Proof.
  intros Hf. destruct (decide (t = i)) as [->|].
  - rewrite list_lookup_alter_eq. destruct (l !! i); simpl; [by rewrite Hf|done].
  - by rewrite list_lookup_alter_ne.
Qed.

Lemma alter_state (f : Task → Task) t (l : list Task) i :
  _state <$> alter f t l !! i =
  if decide (i = t) then (λ T, _state (f T)) <$> l !! i else _state <$> l !! i.
Proof.
  case_decide as E.
  - subst. rewrite list_lookup_alter_eq. by destruct (l !! t).
  - by rewrite list_lookup_alter_ne.
Qed.

Lemma reached_empty : reached empty_world.
Proof.
  split.
  - split; unfold kids; simpl.
    + intros t c H. by apply elem_of_nil in H.
    + constructor.
    + intros t c H. by apply elem_of_nil in H.
    + done.
    + done.
    + done.
  - intros t c H. by apply elem_of_nil in H.
  - intros e H. by apply elem_of_nil in H.
Qed.

(** *** The constructor *)

Lemma new_Task_lookup w hook i :
  tasks (fst (new_Task w hook)) !! i =
  if decide (i = length (tasks w))
  then Some (with_canceler (RootCanceler (length (tasks w)) hook) (base_future None None))
  else tasks w !! i.
Proof.
  simpl. case_decide as E.
  - subst. by rewrite lookup_app_r, Nat.sub_diag.
  - destruct (decide (i < length (tasks w))).
    + by rewrite lookup_app_l.
    + rewrite !lookup_ge_None_2; [done|lia|]. rewrite length_app. simpl. lia.
Qed.

Lemma reached_new w hook : reached w → reached (fst (new_Task w hook)).
Proof.
  intros [Hwf Hcl Hlog].
  assert (∀ i, kids (fst (new_Task w hook)) i = kids w i) as Hk.
  { intros i. unfold kids. rewrite new_Task_lookup. case_decide; [|done].
    subst. by rewrite lookup_ge_None_2. }
  assert (length (tasks (fst (new_Task w hook))) = S (length (tasks w))) as Hl.
  { simpl. rewrite length_app. simpl. lia. }
  split.
  - destruct Hwf as [H1 H2 H3 H4 H5 H6]. split.
    + intros t c. rewrite Hk, Hl. intros H. apply H1 in H. lia.
    + intros t. rewrite Hk. apply H2.
    + intros t c. rewrite Hk. intros H. rewrite new_Task_lookup.
      rewrite decide_False; [by apply H3|]. apply H1 in H. lia.
    + intros c p c'. rewrite Hk, new_Task_lookup. case_decide; [done|]. apply H4.
    + intros t s h. rewrite new_Task_lookup. case_decide; [|apply H5].
      simpl. intros; simplify_eq. done.
    + intros t. rewrite new_Task_lookup. case_decide; [done|]. apply H6.
  - intros t c. rewrite Hk. intros Hc. unfold state_of.
    pose proof (wf_range _ Hwf _ _ Hc) as Hr.
    rewrite !new_Task_lookup, !decide_False by lia. by apply Hcl.
  - intros e He. rewrite Hl. apply Hlog in He. lia.
Qed.

(** *** [then] and [finally] *)

Lemma then_lookup w t f g w' n :
  then_ w t f g = Some (w', n) →
  n = length (tasks w) ∧ t < n ∧ length (tasks w') = S n ∧
  log w' = log w ∧ thenables w' = thenables w ∧
  ∀ i, tasks w' !! i =
       if decide (i = n)
       then Some (with_canceler (ThenCanceler t n)
                                (Task_copy (base_future f g) false))
       else if decide (i = t) then with_child n <$> tasks w !! i
       else tasks w !! i.
Proof.
  unfold then_. destruct (tasks w !! t) as [T|] eqn:ET; [|done].
  intros H. injection H as <- <-.
  pose proof (lookup_lt_Some _ _ _ ET) as Ht. simpl.
  repeat split; [lia|by rewrite length_alter, length_app; simpl; lia|].
  intros i. case_decide as E1; [|case_decide as E2].
  - subst. rewrite list_lookup_alter_ne by lia.
    by rewrite lookup_app_r, Nat.sub_diag.
  - subst. rewrite list_lookup_alter_eq. by rewrite lookup_app_l.
  - rewrite list_lookup_alter_ne by done.
    destruct (decide (i < length (tasks w))).
    + by rewrite lookup_app_l.
    + rewrite !lookup_ge_None_2; [done|lia|]. rewrite length_app. simpl. lia.
Qed.

Lemma then_tree w t f g w' n :
  then_ w t f g = Some (w', n) →
  (∀ i, kids w' i = if decide (i = t) then kids w t ++ [n] else kids w i) ∧
  (∀ i, canceler <$> tasks w' !! i =
        if decide (i = n) then Some (ThenCanceler t n)
        else canceler <$> tasks w !! i) ∧
  (∀ i, state_of w' i = if decide (i = n) then Some Pending else state_of w i).
Proof.
  intros H. apply then_lookup in H as (-> & Ht & Hl & _ & _ & Hi).
  repeat split; intros i; unfold kids, state_of; rewrite Hi.
  - case_decide as E1; [|case_decide as E2].
    + subst. rewrite decide_False by lia. by rewrite lookup_ge_None_2.
    + subst. destruct (tasks w !! t) as [T|] eqn:ET; [done|].
      apply lookup_ge_None in ET. lia.
    + done.
  - case_decide as E1; [done|case_decide as E2; [|done]].
    subst. by destruct (tasks w !! t).
  - case_decide as E1; [done|case_decide as E2; [|done]].
    subst. by destruct (tasks w !! t).
Qed.

Lemma reached_tree w w' t n :
  n = length (tasks w) → t < n → length (tasks w') = S n →
  (∀ e, e ∈ log w' → e ∈ log w) →
  (∀ i, kids w' i = if decide (i = t) then kids w t ++ [n] else kids w i) →
  (∀ i, canceler <$> tasks w' !! i =
        if decide (i = n) then Some (ThenCanceler t n)
        else canceler <$> tasks w !! i) →
  (∀ i, state_of w' i = if decide (i = n) then Some Pending else state_of w i) →
  reached w → reached w'.
Proof.
  intros -> Ht Hl Hlg Hk Hc Hs [Hwf Hcl Hlog].
  assert (∀ i c, c ∈ kids w' i → c ∈ kids w i ∨ (i = t ∧ c = length (tasks w)))
    as Hkin.
  { intros i c. rewrite Hk. case_decide; [|by left]. subst.
    intros [?|Hc']%elem_of_app; [by left|right].
    by apply list_elem_of_singleton in Hc'. }
  split.
  - destruct Hwf as [H1 H2 H3 H4 H5 H6]. split.
    + intros i c Hin. rewrite Hl.
      destruct (Hkin _ _ Hin) as [H|[-> ->]]; [apply H1 in H|]; lia.
    + intros i. rewrite Hk. case_decide; [|done]. subst.
      apply NoDup_app. split; [done|]. split; [|apply NoDup_singleton].
      intros c Hin ->%list_elem_of_singleton. apply H1 in Hin. lia.
    + intros i c Hin. rewrite Hc.
      destruct (Hkin _ _ Hin) as [H|[-> ->]].
      * rewrite decide_False; [by apply H3|]. apply H1 in H. lia.
      * by rewrite decide_True.
    + intros c p c'. rewrite Hc, Hk. case_decide as E.
      * intros; simplify_eq. split; [done|]. rewrite decide_True by done.
        apply elem_of_app. right. by left.
      * intros H. apply H4 in H as [-> Hin]. split; [done|].
        case_decide; [subst; apply elem_of_app; by left|done].
    + intros i s h. rewrite Hc. case_decide; [done|]. apply H5.
    + intros i. rewrite Hc. case_decide; [done|]. apply H6.
  - intros i c Hin. rewrite !Hs.
    destruct (Hkin _ _ Hin) as [H|[-> ->]].
    + pose proof (wf_range _ Hwf _ _ H). rewrite !decide_False by lia.
      by apply Hcl.
    + by rewrite (decide_True (P := length (tasks w) = length (tasks w))).
  - intros e He. rewrite Hl. apply Hlg, Hlog in He. lia.
Qed.

Lemma reached_then w t f g w' n :
  then_ w t f g = Some (w', n) → reached w → reached w'.
Proof.
  intros H. pose proof (then_lookup _ _ _ _ _ _ H) as (Hn & Ht & Hl & Hlg & _ & _).
  pose proof (then_tree _ _ _ _ _ _ H) as (Hk & Hc & Hs).
  apply (reached_tree w w' t n); try done. intros e. by rewrite Hlg.
Qed.

Lemma reached_finally w t cb w' n :
  finally_ w t cb = Some (w', n) → reached w → reached w'.
Proof.
  unfold finally_.
  destruct (then_ w t _ _) as [[w1 n1]|] eqn:E; [|done].
  intros H. injection H as <- <-.
  pose proof (then_lookup _ _ _ _ _ _ E) as (Hn & Ht & Hl & Hlg & _ & _).
  pose proof (then_tree _ _ _ _ _ _ E) as (Hk & Hc & Hs).
  apply (reached_tree w _ t n1); simpl; try done.
  - by rewrite length_alter.
  - intros e. by rewrite Hlg.
  - intros i. rewrite <- Hk. unfold kids. simpl. by apply alter_kids.
  - intros i. rewrite <- Hc. simpl. by apply alter_canceler.
  - intros i. rewrite <- Hs. unfold state_of. simpl. rewrite alter_state.
    case_decide; [|done]. by destruct (tasks w1 !! i).
Qed.

(** *** Steps that keep the tasks, or change one state *)

Lemma reached_same_tasks w w' :
  tasks w' = tasks w →
  (∀ e, e ∈ log w' → e ∈ log w ∨ ev_task e < length (tasks w)) →
  reached w → reached w'.
Proof.
  intros Ht Hlg [Hwf Hcl Hlog]. split.
  - apply (wf_same_tree w); unfold kids; by rewrite ?Ht.
  - intros t c. unfold pending_closed, kids, state_of in *. rewrite Ht. apply Hcl.
  - intros e He. rewrite Ht. destruct (Hlg e He) as [H|H]; [by apply Hlog|done].
Qed.

Lemma reached_emit e w :
  ev_task e < length (tasks w) → reached w → reached (emit e w).
Proof.
  intros He. apply reached_same_tasks; [done|].
  intros e' [->|H]%elem_of_cons; [by right|by left].
Qed.

Lemma base_settle_state w t rejected x i :
  state_of (base_settle w t rejected x) i =
  if decide (i = t ∧ state_of w t = Some Pending)
  then Some (settled_state rejected) else state_of w i.
Proof.
  unfold state_of, base_settle. simpl. rewrite alter_state.
  destruct (decide (i = t)) as [->|].
  - destruct (tasks w !! t) as [T|]; simpl.
    + destruct (decide (_state T = Pending)) as [E|E].
      * rewrite decide_True; [done|]. split; [done|by f_equal].
      * rewrite decide_False; [done|]. intros [_ ?]. simplify_eq.
    + rewrite decide_False; [done|]. by intros [_ ?].
  - rewrite decide_False; [done|]. by intros [? _].
Qed.

Lemma base_settle_tree w t rejected x :
  length (tasks (base_settle w t rejected x)) = length (tasks w) ∧
  (∀ i, kids (base_settle w t rejected x) i = kids w i) ∧
  (∀ i, canceler <$> tasks (base_settle w t rejected x) !! i =
        canceler <$> tasks w !! i) ∧
  (∀ i, finalizer (base_settle w t rejected x) i = finalizer w i).
Proof.
  unfold base_settle, kids, finalizer. simpl. repeat split.
  - apply length_alter.
  - intros i. apply alter_kids. intros T. by case_decide.
  - intros i. apply alter_canceler. intros T. by case_decide.
  - intros i. destruct (decide (t = i)) as [->|].
    + rewrite list_lookup_alter_eq. destruct (tasks w !! i) as [T|]; [|done].
      simpl. by case_decide.
    + by rewrite list_lookup_alter_ne.
Qed.

Lemma reached_settle w t rejected x :
  (∀ p, t ∈ kids w p → state_of w p ≠ Some Pending) →
  reached w → reached (base_settle w t rejected x).
Proof.
  intros Hp [Hwf Hcl Hlog].
  destruct (base_settle_tree w t rejected x) as (Hl & Hk & Hc & _).
  split.
  - by apply (wf_same_tree w).
  - intros p c. rewrite Hk, !base_settle_state. intros Hin.
    case_decide as E1; [by destruct rejected|]. intros Hst.
    rewrite decide_False; [by apply Hcl with p|].
    intros [-> _]. by apply (Hp p).
  - intros e He. rewrite Hl. by apply Hlog.
Qed.

Lemma root_not_child w t p :
  wf w → is_root w t = true → t ∉ kids w p.
Proof.
  intros Hwf Hr Hin. apply (wf_child _ Hwf) in Hin.
  unfold is_root in Hr. by rewrite Hin in Hr.
Qed.

Lemma reached_wrapped_settle w t rejected x :
  is_root w t = true → reached w → reached (wrapped_settle w t rejected x).
Proof.
  intros Hr Hre. unfold wrapped_settle.
  destruct (tasks w !! t) as [T|] eqn:ET; [|done].
  case_decide; [|done].
  apply reached_settle.
  - intros p Hin. by apply root_not_child with (p := p) in Hr; [|apply Hre].
  - apply reached_emit; [|done]. simpl. by apply lookup_lt_Some in ET.
Qed.

Lemma then_wrapper_log w task rejected x w' o :
  then_wrapper w task rejected x = (w', o) →
  tasks w' = tasks w ∧ thenables w' = thenables w ∧
  (log w' = log w ∨
   log w' = EvHandler task rejected x :: log w ∧
   ∃ s, state_of w task = Some s ∧ s ≠ Canceled).
Proof.
  unfold then_wrapper, call_handler, state_of.
  destruct (tasks w !! task) as [T|]; [|intros; simplify_eq; auto].
  case_decide; [|intros; simplify_eq; auto].
  destruct (if rejected then _ else _); intros; simplify_eq; simpl; [|auto].
  split; [done|]. split; [done|]. right. eauto.
Qed.

Lemma settle_with_eq w t o :
  settle_with w t o =
  base_settle w t (match o with Returns _ => false | Throws _ => true end)
                  (match o with Returns v => v | Throws e => e end).
Proof. by destruct o. Qed.

Lemma reached_deliver w t : reached w → reached (deliver w t).
Proof.
  intros Hre. unfold deliver.
  destruct (tasks w !! t) as [T|] eqn:ET; [|done].
  destruct (canceler T) as [|parent task|] eqn:EK; try done.
  assert (canceler <$> tasks w !! t = Some (ThenCanceler parent task)) as Hk
    by (by rewrite ET; simpl; rewrite EK).
  destruct (wf_then _ (reached_wf _ Hre) _ _ _ Hk) as [-> Hin].
  assert (∀ s, state_of w parent = Some s → s ≠ Pending →
          ∀ rej x w1 o, then_wrapper w t rej x = (w1, o) →
                        reached (settle_with w1 t o)) as Hgo.
  { intros s Hs Hne rej x w1 o E.
    apply then_wrapper_log in E as (Ht & _ & Hlg).
    rewrite settle_with_eq. apply reached_settle.
    - intros p Hp. unfold kids, state_of in *. rewrite Ht in *.
      rewrite (kids_parent_unique w p parent t); [congruence|apply Hre|done..].
    - apply (reached_same_tasks w); [done| |done].
      intros e He. destruct Hlg as [E'|[E' _]]; rewrite E' in He; [by left|].
      apply elem_of_cons in He as [->|He]; [right|by left].
      simpl. by apply lookup_lt_Some in ET. }
  unfold state_of in Hgo.
  destruct (_state T); try done;
    (destruct (tasks w !! parent) as [P|] eqn:EP; [|done]);
    simpl in Hgo; destruct (_state P) eqn:EsP; try done;
    match goal with |- reached (let '(_, _) := ?c in _) =>
      destruct c as [w1 o] eqn:E end;
    eapply Hgo; eauto.
Qed.

Lemma react_tasks_log w th :
  tasks (react w th) = tasks w ∧
  (log (react w th) = log w ∨
   ∃ t T, tasks w !! t = Some T ∧ is_Some (_finally T) ∧
          log (react w th) = EvFinally t (_state T) :: log w).
Proof.
  unfold react.
  destruct (thenables w !! th) as [X|]; [|auto].
  destruct (th_settled X); [|auto].
  destruct (th_reactions X) as [|[t out|out] rest]; [auto| |auto].
  simpl. destruct (tasks w !! t) as [T|] eqn:ET; [|auto].
  destruct (_finally T) as [cb|] eqn:EF; [|auto].
  unfold runFinally. simpl. try rewrite ET.
  destruct (caught cb); simpl; (split; [done|]); right;
    exists t, T; rewrite EF; eauto.
Qed.

Lemma reached_react w th : reached w → reached (react w th).
Proof.
  destruct (react_tasks_log w th) as [Ht Hlg].
  apply reached_same_tasks; [done|].
  intros e He. destruct Hlg as [E|(t & T & ET & _ & E)]; rewrite E in He;
    [by left|].
  apply elem_of_cons in He as [->|He]; [right|by left].
  simpl. by apply lookup_lt_Some in ET.
Qed.

(** *** [cancel] *)

Lemma pending_desc w o i :
  pending_closed w → state_of w o = Some Pending → desc w o i →
  state_of w i = Some Pending.
Proof.
  intros Hcl Ho Hd. induction Hd as [|t c d Hc _ IH]; [done|].
  apply IH. by apply Hcl with t.
Qed.

Lemma Run_reached w o ft d w' :
  reached w → Run w o ft d w' →
  (∀ p, o ∈ kids w p → state_of w p ≠ Some Pending) →
  reached w'.
Proof.
  intros [Hwf Hcl Hlog] HR Hp.
  pose proof (Run_shape _ _ _ _ _ HR) as Hs.
  split.
  - by apply (shape_wf w).
  - intros t c. rewrite <- (shape_kids w w') by done. intros Hin Hst.
    assert (tasks w' !! t = tasks w !! t) as Et.
    { destruct (proj1 (proj1 Run_tasks _ _ _ _ _ HR) t) as [E|[_ E]]; [done|].
      unfold state_of in Hst. rewrite E in Hst. by destruct (tasks w !! t). }
    assert (state_of w t = Some Pending) as Hst0
      by (unfold state_of in *; by rewrite <- Et).
    unfold state_of.
    destruct (proj1 (proj1 Run_tasks _ _ _ _ _ HR) c) as [E|[Hd E]].
    + rewrite E. by apply Hcl with t.
    + exfalso. apply desc_inv_r in Hd as [->|(q & Hq & Hcq)].
      * by apply (Hp t).
      * rewrite <- (kids_parent_unique w t q c) in Hq by done.
        apply (Run_canceled _ _ _ _ _ _ HR) in Hq.
        unfold state_of in Hst, Hst0. rewrite Hq in Hst.
        by destruct (tasks w !! t).
  - intros e He. rewrite <- (shape_length w w') by done.
    rewrite (Run_log _ _ _ _ _ HR) in He.
    apply elem_of_app in He as [He|He]; [|by apply Hlog].
    apply (proj1 Run_events_desc _ _ _ _ _ HR) in He.
    by apply lookup_lt_is_Some, (proj1 Run_desc_exists _ _ _ _ _ HR).
Qed.

Lemma Fired_reached w o c :
  reached w → state_of w o = Some Pending → Fired w o c → reached (after w c).
Proof.
  intros Hre Ho HF. pose proof (state_of_lt _ _ _ Ho) as Hlt.
  destruct HF as [e Hk|v d w' Hk HR|p s d w' Hk Hs Hne HR]; simpl.
  - by apply reached_emit.
  - apply (Run_reached _ _ _ _ _ (reached_emit (EvHook o) w Hlt Hre) HR).
    intros p Hin. apply (wf_child _ (reached_wf _ Hre)) in Hin. congruence.
  - apply (Run_reached _ _ _ _ _ Hre HR).
    intros q Hin. apply (wf_then _ (reached_wf _ Hre)) in Hk as [_ Hk].
    rewrite (kids_parent_unique w q p o); [congruence|apply Hre|done..].
Qed.

Lemma reached_cancel w t : reached w → reached (after w (Task_cancel w t)).
Proof.
  intros Hre. destruct (state_of w t) as [s|] eqn:Hst.
  - destruct (decide (s = Pending)) as [->|Hs].
    + destruct (Task_cancel_Fired w t) as (o & _ & _ & Ho & HF);
        [apply Hre|done|]. by apply Fired_reached with o.
    + unfold Task_cancel, fuel_of. by rewrite (cancel_not_pending _ _ _ s).
  - unfold Task_cancel, fuel_of, state_of in *. simpl.
    by destruct (tasks w !! t).
Qed.

Lemma exec_reached w op : reached w → reached (exec w op).
Proof.
  intros Hre. destruct op as [hook|t f g|t cb|t|t v|t e|t| |th|th]; simpl.
  - by apply reached_new.
  - destruct (then_ w t f g) as [[w' n]|] eqn:E; [|done].
    by apply (reached_then w t f g w' n).
  - destruct (finally_ w t cb) as [[w' n]|] eqn:E; [|done].
    by apply (reached_finally w t cb w' n).
  - by apply reached_cancel.
  - destruct (is_root w t) eqn:Hr; [|done]. by apply reached_wrapped_settle.
  - destruct (is_root w t) eqn:Hr; [|done]. by apply reached_wrapped_settle.
  - by apply reached_deliver.
  - by apply (reached_same_tasks w); [|left|].
  - by apply (reached_same_tasks w); [|left|].
  - by apply reached_react.
Qed.

Lemma run_snoc ops op : run (ops ++ [op]) = exec (run ops) op.
Proof. unfold run. by rewrite foldl_app. Qed.

Lemma run_app ops ops' : run (ops ++ ops') = foldl exec (run ops) ops'.
Proof. unfold run. by rewrite foldl_app. Qed.

Lemma run_reached ops : reached (run ops).
Proof.
  induction ops as [|op ops IH] using rev_ind; [apply reached_empty|].
  rewrite run_snoc. by apply exec_reached.
Qed.

(** * The claims *)

Lemma escalates_det w t o o' : escalates w t o → escalates w t o' → o = o'.
Proof.
  intros H. revert o'.
  induction H as [t self hook Hk|t p s Hk Hp Hs|t p o Hk Hp _ IH]; intros o' H';
    inversion H' as [? ? ? Hk'|? ? ? Hk' Hp' Hs'|? ? ? Hk' Hp' He']; subst;
    try done; try congruence.
  rewrite Hk in Hk'. simplify_eq. by apply IH.
Qed.

Lemma cancel_fuel fuel w t :
  wf w → state_of w t = Some Pending → t < fuel →
  cancel fuel w t = Task_cancel w t.
Proof.
  intros Hwf Hst Hlt.
  destruct (cancel_fire fuel w t Hwf Hst Hlt) as (o & Ho & ->).
  destruct (Task_cancel_fire w t Hwf Hst) as (o' & Ho' & ->).
  by rewrite (escalates_det _ _ _ _ Ho Ho').
Qed.

Lemma Fired_states w o c :
  Fired w o c →
  (∀ i, tasks (after w c) !! i = tasks w !! i ∨
        (desc w o i ∧ tasks (after w c) !! i = with_state Canceled <$> tasks w !! i)) ∧
  (∀ w', c = Normal w' →
         ∀ i, desc w o i → tasks w' !! i = with_state Canceled <$> tasks w !! i).
Proof.
  intros [e Hk|v d w' Hk HR|p s d w' Hk Hs Hne HR]; simpl.
  - split; [by left|done].
  - pose proof (proj1 Run_tasks _ _ _ _ _ HR) as [Ha Hb]. split.
    + intros i. destruct (Ha i) as [E|[Hd E]]; [by left|right].
      split; [by apply (shape_desc (emit (EvHook o) w))|done].
    + intros ? [= <-] i Hd. apply Hb. by apply (shape_desc w).
  - pose proof (proj1 Run_tasks _ _ _ _ _ HR) as [Ha Hb]. split; [done|].
    by intros ? [= <-].
Qed.

Lemma Run_event_kinds :
  (∀ w t ft d w', Run w t ft d w' → ∀ e, e ∈ d → propagation_event e) ∧
  (∀ w cs ft d w', RunKids w cs ft d w' → ∀ e, e ∈ d → propagation_event e).
Proof.
  apply Run_RunKids_ind.
  - intros w t ft T w2 ft' own kd w' ET EF Hown HK IH e He.
    destruct (own_events _ _ _ _ _ _ _ ET EF Hown) as [Hn _].
    apply elem_of_app in He as [He|He]; [by apply IH|].
    unfold node_events in Hn.
    destruct (finalizer w t); [destruct (isThenable ft)|].
    + destruct Hn as (? & ? & _ & ->). by elem_cases He.
    + subst. by elem_cases He.
    + subst. by elem_cases He.
  - intros w ft e He. by apply elem_of_nil in He.
  - intros w c cs ft d1 w1 d2 w2 _ IH1 _ IH2 e He.
    apply elem_of_app in He as [He|He]; auto.
Qed.


Lemma no_hook_calls t (d : list Event) :
  (∀ e, e ∈ d → is_hook_event e = false) → hook_calls t d = 0.
Proof.
  intros H. unfold hook_calls.
  induction d as [|e d IH]; [done|].
  rewrite filter_cons_False.
  - apply IH. intros e' He'. apply H. by right.
  - intros ->. by specialize (H (EvHook t) ltac:(by left)).
Qed.

Lemma hook_calls_app t d1 d2 :
  hook_calls t (d1 ++ d2) = hook_calls t d1 + hook_calls t d2.
Proof. unfold hook_calls. by rewrite filter_app, length_app. Qed.

Lemma Fired_not_Stuck w o c : Fired w o c → c ≠ Stuck.
Proof. by intros []. Qed.

Lemma Task_cancel_returns w t :
  wf w → t < length (tasks w) → Task_cancel w t ≠ Stuck.
Proof.
  intros Hwf Ht. destruct (lookup_lt_is_Some_2 _ _ Ht) as [T ET].
  destruct (decide (_state T = Pending)) as [E|E].
  - destruct (Task_cancel_Fired w t Hwf) as (o & _ & _ & _ & HF).
    { unfold state_of. by rewrite ET; simpl; rewrite E. }
    by apply Fired_not_Stuck with w o.
  - unfold Task_cancel, fuel_of.
    rewrite (cancel_not_pending _ w t (_state T)); [done| |done].
    unfold state_of. by rewrite ET.
Qed.

(** C3: [cancel()] on a task that is not Pending does nothing: the world,
    and so every state and the log of hook and finalizer calls, is the
    same after the call. *)
Theorem cancel_not_pending_noop (w : World) (t : nat) (s : State) :
  state_of w t = Some s → s ≠ Pending →
  Task_cancel w t = Normal w ∧ exec w (OpCancel t) = w.
Proof.
  intros Hst Hs. unfold exec, Task_cancel, fuel_of.
  by rewrite (cancel_not_pending _ _ _ s).
Qed.


(** ** States along a history *)

Lemma deliver_state w t i :
  state_of (deliver w t) i = state_of w i ∨
  (i = t ∧ state_of w t = Some Pending ∧
   ∃ rejected, state_of (deliver w t) i = Some (settled_state rejected)).
Proof.
  unfold deliver.
  destruct (tasks w !! t) as [T|] eqn:ET; [|by left].
  destruct (canceler T) as [|parent task|]; try by left.
  assert (∀ rej x w1 o, then_wrapper w t rej x = (w1, o) →
    state_of (settle_with w1 t o) i = state_of w i ∨
    (i = t ∧ state_of w t = Some Pending ∧
     ∃ rejected, state_of (settle_with w1 t o) i = Some (settled_state rejected)))
    as Hgo.
  { intros rej x w1 o E. apply then_wrapper_log in E as (Ht & _ & _).
    rewrite settle_with_eq, base_settle_state. unfold state_of. rewrite Ht.
    case_decide as Hd; [|by left]. destruct Hd as [-> Hd]. right. eauto. }
  destruct (_state T); try (by left);
    (destruct (tasks w !! parent) as [P|]; [|by left]);
    destruct (_state P); try (by left);
    match goal with |- context [let '(_, _) := ?c in _] =>
      destruct c as [w1 o] eqn:E end;
    eapply Hgo; eauto.
Qed.

Lemma wrapped_settle_state w t rejected x i :
  state_of (wrapped_settle w t rejected x) i = state_of w i ∨
  (i = t ∧ state_of w t = Some Pending ∧
   state_of (wrapped_settle w t rejected x) i = Some (settled_state rejected)).
Proof.
  unfold wrapped_settle. destruct (tasks w !! t) as [T|]; [|by left].
  case_decide; [|by left]. rewrite base_settle_state.
  change (state_of (emit ?e w)) with (state_of w).
  case_decide as Hd; [|by left]. destruct Hd as [-> Hd]. right. eauto.
Qed.

Lemma cancel_state w t i :
  reached w →
  state_of (after w (Task_cancel w t)) i = state_of w i ∨
  (state_of w i = Some Pending ∧
   state_of (after w (Task_cancel w t)) i = Some Canceled).
Proof.
  intros Hre. destruct (state_of w t) as [s|] eqn:Hst.
  - destruct (decide (s = Pending)) as [->|Hs].
    + destruct (Task_cancel_Fired w t) as (o & _ & _ & Ho & HF);
        [apply Hre|done|].
      destruct (proj1 (Fired_states _ _ _ HF) i) as [E|[Hd E]];
        unfold state_of; rewrite E; [by left|].
      pose proof (pending_desc w o i (reached_closed _ Hre) Ho Hd) as Hi.
      unfold state_of in Hi. right. split; [done|].
      by destruct (tasks w !! i).
    + unfold Task_cancel, fuel_of.
      rewrite (cancel_not_pending _ _ _ s) by done. by left.
  - unfold Task_cancel, fuel_of, state_of in *. simpl.
    destruct (tasks w !! t); [done|by left].
Qed.

Lemma then_state w t f g w' n i s :
  then_ w t f g = Some (w', n) → state_of w i = Some s → state_of w' i = Some s.
Proof.
  intros H Hs. pose proof (then_lookup _ _ _ _ _ _ H) as (-> & _).
  apply then_tree in H as (_ & _ & ->).
  apply state_of_lt in Hs as ?. by rewrite decide_False by lia.
Qed.

Lemma finally_state w t cb w' n i s :
  finally_ w t cb = Some (w', n) → state_of w i = Some s → state_of w' i = Some s.
Proof.
  unfold finally_. destruct (then_ w t _ _) as [[w1 n1]|] eqn:E; [|done].
  intros H Hs. injection H as <- <-.
  apply (then_state _ _ _ _ _ _ _ _ E) in Hs.
  unfold state_of in *. simpl. rewrite alter_state.
  case_decide; [|done]. by destruct (tasks w1 !! i).
Qed.

(** One step changes the state of a task only if the task is Pending. *)
Lemma exec_state w op i s :
  reached w → state_of w i = Some s →
  state_of (exec w op) i = Some s ∨
  (s = Pending ∧ ∃ s', state_of (exec w op) i = Some s' ∧ s' ≠ Pending).
Proof.
  intros Hre Hs.
  destruct op as [hook|t f g|t cb|t|t v|t e|t| |th|th]; cbn [exec].
  - left. apply state_of_lt in Hs as ?. unfold state_of in *. simpl.
    by rewrite lookup_app_l.
  - left. destruct (then_ w t f g) as [[w' n]|] eqn:E; [|done].
    by apply (then_state _ _ _ _ _ _ _ _ E).
  - left. destruct (finally_ w t cb) as [[w' n]|] eqn:E; [|done].
    by apply (finally_state _ _ _ _ _ _ _ E).
  - destruct (cancel_state w t i Hre) as [->|[E ->]]; [by left|right].
    rewrite Hs in E. simplify_eq. eauto.
  - destruct (is_root w t); [|by left]. unfold wrapped_resolve.
    destruct (wrapped_settle_state w t false v i) as [->|(-> & E & ->)];
      [by left|right]. rewrite Hs in E. simplify_eq. eauto.
  - destruct (is_root w t); [|by left]. unfold wrapped_reject.
    destruct (wrapped_settle_state w t true e i) as [->|(-> & E & ->)];
      [by left|right]. rewrite Hs in E. simplify_eq. eauto.
  - destruct (deliver_state w t i) as [->|(-> & E & rej & ->)];
      [by left|right]. rewrite Hs in E. simplify_eq.
    split; [done|]. eexists. split; [done|]. by destruct rej.
  - by left.
  - by left.
  - left. unfold state_of. by rewrite (proj1 (react_tasks_log w th)).
Qed.

Lemma foldl_exec_final w ops i s :
  reached w → state_of w i = Some s → s ≠ Pending →
  state_of (foldl exec w ops) i = Some s.
Proof.
  revert w. induction ops as [|op ops IH]; intros w Hre Hs Hne; [done|].
  simpl. apply IH; [by apply exec_reached| |done].
  by destruct (exec_state w op i s Hre Hs) as [?|[? _]].
Qed.

Lemma cancel_enters_pending w t i ft :
  reached w →
  EvPropagate i ft ∈ log (after w (Task_cancel w t)) →
  EvPropagate i ft ∈ log w ∨ state_of w i = Some Pending.
Proof.
  intros Hre He. destruct (state_of w t) as [s|] eqn:Hst.
  - destruct (decide (s = Pending)) as [->|Hs].
    + destruct (Task_cancel_Fired w t) as (o & _ & _ & Ho & HF);
        [apply Hre|done|].
      destruct HF as [e Hk|v d w' Hk HR|p s d w' Hk Hs Hne HR]; simpl in He.
      * apply elem_of_cons in He as [?|?]; [done|by left].
      * rewrite (Run_log _ _ _ _ _ HR) in He.
        apply elem_of_app in He as [He|He].
        { right. apply (proj1 Run_events_desc _ _ _ _ _ HR) in He.
          apply (shape_desc _ w) in He; [|done].
          by apply (pending_desc w o); [apply Hre|..]. }
        apply elem_of_cons in He as [?|?]; [done|by left].
      * rewrite (Run_log _ _ _ _ _ HR) in He.
        apply elem_of_app in He as [He|He]; [|by left].
        right. apply (proj1 Run_events_desc _ _ _ _ _ HR) in He.
        by apply (pending_desc w o); [apply Hre|..].
    + unfold Task_cancel, fuel_of in He.
      rewrite (cancel_not_pending _ _ _ s) in He by done. by left.
  - unfold Task_cancel, fuel_of, state_of in *. simpl in He.
    destruct (tasks w !! t); [done|by left].
Qed.

(** ** What a step adds to the log *)

Lemma Fired_log w o c :
  Fired w o c →
  ∃ d hk, log (after w c) = d ++ hk ++ log w ∧
          (∀ e, e ∈ d → propagation_event e) ∧
          ((hk = [EvHook o] ∧
            ∃ h, canceler <$> tasks w !! o = Some (RootCanceler o h)) ∨
           (hk = [] ∧
            ∃ p, canceler <$> tasks w !! o = Some (ThenCanceler p o))).
Proof.
  intros [e Hk|v d w' Hk HR|p s d w' Hk Hs Hne HR]; simpl.
  - exists [], [EvHook o]. split; [done|]. split; [|eauto].
    intros e' He'. by apply elem_of_nil in He'.
  - exists d, [EvHook o]. split; [by rewrite (Run_log _ _ _ _ _ HR)|].
    split; [apply (proj1 Run_event_kinds _ _ _ _ _ HR)|eauto].
  - exists d, []. split; [by rewrite (Run_log _ _ _ _ _ HR)|].
    split; [apply (proj1 Run_event_kinds _ _ _ _ _ HR)|eauto].
Qed.

Lemma deliver_log w t :
  log (deliver w t) = log w ∨
  ∃ rejected x s, log (deliver w t) = EvHandler t rejected x :: log w ∧
                  state_of w t = Some s ∧ s ≠ Canceled.
Proof.
  unfold deliver.
  destruct (tasks w !! t) as [T|] eqn:ET; [|by left].
  destruct (canceler T) as [|parent task|]; try by left.
  assert (∀ rej x w1 o, then_wrapper w t rej x = (w1, o) →
    log (settle_with w1 t o) = log w ∨
    ∃ rejected x s, log (settle_with w1 t o) = EvHandler t rejected x :: log w ∧
                    state_of w t = Some s ∧ s ≠ Canceled) as Hgo.
  { intros rej x w1 o E. apply then_wrapper_log in E as (_ & _ & Hlg).
    rewrite settle_with_eq. unfold base_settle. simpl.
    destruct Hlg as [?|[? (s & ? & ?)]]; [by left|right]. eauto 6. }
  destruct (_state T); try (by left);
    (destruct (tasks w !! parent) as [P|]; [|by left]);
    destruct (_state P); try (by left);
    match goal with |- context [let '(_, _) := ?c in _] =>
      destruct c as [w1 o] eqn:E end;
    eapply Hgo; eauto.
Qed.

Lemma exec_log w op :
  reached w →
  ∃ d, log (exec w op) = d ++ log w ∧ ∀ e, e ∈ d → step_event w op e.
Proof.
  intros Hre.
  assert (∀ w', log w' = log w →
          ∃ d, log w' = d ++ log w ∧ ∀ e, e ∈ d → step_event w op e) as Hsame.
  { intros w' ->. exists []. split; [done|]. intros e He. by apply elem_of_nil in He. }
  destruct op as [hook|t f g|t cb|t|t v|t e|t| |th|th]; cbn [exec].
  - by apply Hsame.
  - destruct (then_ w t f g) as [[w' n]|] eqn:E; [|by apply Hsame].
    apply Hsame. by apply then_lookup in E as (_ & _ & _ & ? & _).
  - unfold finally_. destruct (then_ w t _ _) as [[w' n]|] eqn:E; [|by apply Hsame].
    apply Hsame. simpl. by apply then_lookup in E as (_ & _ & _ & ? & _).
  - destruct (state_of w t) as [s|] eqn:Hst.
    + destruct (decide (s = Pending)) as [->|Hs].
      * destruct (Task_cancel_Fired w t) as (o & _ & _ & Ho & HF);
          [apply Hre|done|].
        destruct (Fired_log _ _ _ HF) as (d & hk & -> & Hd & Hhk).
        exists (d ++ hk). split; [by rewrite app_assoc|].
        intros e [He|He]%elem_of_app.
        { apply Hd in He. destruct e; try done. simpl in *. eauto. }
        destruct Hhk as [[-> _]|[-> _]]; elem_cases He. simpl. eauto.
      * unfold Task_cancel, fuel_of.
        rewrite (cancel_not_pending _ _ _ s) by done. by apply Hsame.
    + unfold Task_cancel, fuel_of, state_of in *. simpl.
      destruct (tasks w !! t); [done|by apply Hsame].
  - destruct (is_root w t); [|by apply Hsame].
    unfold wrapped_resolve, wrapped_settle.
    destruct (tasks w !! t) as [T|] eqn:ET; [|by apply Hsame].
    case_decide; [|by apply Hsame].
    exists [EvResolve t false v]. split; [done|].
    intros e' He'. elem_cases He'. simpl. unfold state_of. rewrite ET. eauto.
  - destruct (is_root w t); [|by apply Hsame].
    unfold wrapped_reject, wrapped_settle.
    destruct (tasks w !! t) as [T|] eqn:ET; [|by apply Hsame].
    case_decide; [|by apply Hsame].
    exists [EvResolve t true e]. split; [done|].
    intros e' He'. elem_cases He'. simpl. unfold state_of. rewrite ET. eauto.
  - destruct (deliver_log w t) as [E|(rej & x & s & E & Hs & Hne)];
      [by apply Hsame|].
    exists [EvHandler t rej x]. split; [done|].
    intros e' He'. elem_cases He'. simpl. eauto.
  - by apply Hsame.
  - by apply Hsame.
  - destruct (proj2 (react_tasks_log w th)) as [E|(t & T & _ & _ & E)];
      [by apply Hsame|].
    exists [EvFinally t (_state T)]. split; [done|].
    intros e' He'. elem_cases He'. simpl. eauto.
Qed.

Lemma count_none {A} (P : A → Prop) `{∀ x, Decision (P x)} (d : list A) :
  (∀ e, e ∈ d → ¬ P e) → length (filter P d) = 0.
Proof.
  induction d as [|e d IH]; intros Hd; [done|].
  rewrite filter_cons_False by (apply Hd; by left).
  apply IH. intros e' He'. apply Hd. by right.
Qed.

(** ** Handlers and executor continuations of a Canceled task *)

Lemma exec_canceled_quiet w op t :
  reached w → state_of w t = Some Canceled →
  handler_calls t (log (exec w op)) = handler_calls t (log w) ∧
  resolve_calls t (log (exec w op)) = resolve_calls t (log w).
Proof.
  intros Hre Hst. destruct (exec_log w op Hre) as (d & -> & Hd).
  unfold handler_calls, resolve_calls. rewrite !filter_app, !length_app.
  assert (length (filter (λ e, is_handler_event t e = true) d) = 0) as ->.
  { apply count_none. intros e He Hp. apply Hd in He.
    destruct e; try done. simpl in *.
    apply bool_decide_eq_true in Hp as ->.
    destruct He as (s & Hs & Hne). congruence. }
  assert (length (filter (λ e, is_resolve_event t e = true) d) = 0) as ->.
  { apply count_none. intros e He Hp. apply Hd in He.
    destruct e; try done. simpl in *.
    apply bool_decide_eq_true in Hp as ->.
    destruct He as (s & Hs & Hne). congruence. }
  done.
Qed.

Lemma foldl_canceled_quiet w ops t :
  reached w → state_of w t = Some Canceled →
  handler_calls t (log (foldl exec w ops)) = handler_calls t (log w) ∧
  resolve_calls t (log (foldl exec w ops)) = resolve_calls t (log w).
Proof.
  revert w. induction ops as [|op ops IH]; intros w Hre Hst; [done|]. simpl.
  destruct (exec_canceled_quiet w op t Hre Hst) as [<- <-].
  apply IH; [by apply exec_reached|].
  by destruct (exec_state w op t Canceled Hre Hst) as [?|[? _]].
Qed.

(** C6: once a task is Canceled, the resolve and reject the constructor
    gave to its executor do nothing, the wrappers [then] made for it skip
    the handlers and return [undefined], and for the rest of the history
    no handler of the task is called and no resolve or reject of its
    executor reaches the base future. *)
Theorem canceled_task_callbacks_never_run (ops ops' : list Op) (t : nat) :
  state_of (run ops) t = Some Canceled →
  (∀ x, wrapped_resolve (run ops) t x = run ops ∧
        wrapped_reject (run ops) t x = run ops) ∧
  (∀ rejected x,
     then_wrapper (run ops) t rejected x = (run ops, Returns VUndefined)) ∧
  handler_calls t (log (run (ops ++ ops'))) = handler_calls t (log (run ops)) ∧
  resolve_calls t (log (run (ops ++ ops'))) = resolve_calls t (log (run ops)).
Proof.
  intros Hst. split; [|split].
  - intros x. unfold wrapped_resolve, wrapped_reject, wrapped_settle.
    unfold state_of in Hst.
    destruct (tasks (run ops) !! t) as [T|]; [|done]. simplify_eq/=.
    by destruct (decide (_state T ≠ Canceled)) as [Hn|_].
  - intros rejected x. unfold then_wrapper. unfold state_of in Hst.
    destruct (tasks (run ops) !! t) as [T|]; [|done]. simplify_eq/=.
    by destruct (decide (_state T ≠ Canceled)) as [Hn|_].
  - rewrite run_app. apply foldl_canceled_quiet; [apply run_reached|done].
Qed.

(** The scenario of C6: [t1] is resolved, [t1.then(f, g)] is canceled
    before the base future calls [f]; [f] is never called, whatever
    follows. *)
Example resolve_then_cancel_child hook v f g ops' :
  handler_calls 1
    (log (run ([OpNew hook; OpResolve 0 v; OpThen 0 f g; OpCancel 1] ++ ops'))) = 0.
Proof.
  assert (state_of (run [OpNew hook; OpResolve 0 v; OpThen 0 f g; OpCancel 1]) 1
          = Some Canceled) as Hst by reflexivity.
  rewrite run_app.
  by rewrite (proj1 (foldl_canceled_quiet _ ops' 1 (run_reached _) Hst)).
Qed.

(** The scenario [t1 = new Task(exec, noop); t2 = t1.then(f);
    t3 = t2.finally(g); t1.cancel()]: the three tasks are Canceled, [f] is
    never called and [g] is called once, whatever follows. *)
Example cancel_root_of_chain f g ops' :
  let ops := [OpNew (Returns VUndefined); OpThen 0 (Some f) None;
              OpFinally 1 g; OpCancel 0] in
  state_of (run (ops ++ ops')) 0 = Some Canceled ∧
  state_of (run (ops ++ ops')) 1 = Some Canceled ∧
  state_of (run (ops ++ ops')) 2 = Some Canceled ∧
  handler_calls 1 (log (run (ops ++ ops'))) = 0 ∧
  finalizer_uses 2 (log (run ops)) = 1.
Proof.
  intros ops. rewrite run_app.
  assert (∀ i, i < 3 → state_of (run ops) i = Some Canceled) as Hc.
  { intros i Hi. destruct i as [|[|[|i]]]; [reflexivity..|lia]. }
  repeat split.
  - apply foldl_exec_final; [apply run_reached|by apply Hc; lia|done].
  - apply foldl_exec_final; [apply run_reached|by apply Hc; lia|done].
  - apply foldl_exec_final; [apply run_reached|by apply Hc; lia|done].
  - by rewrite (proj1 (foldl_canceled_quiet _ ops' 1 (run_reached _) (Hc 1 ltac:(lia)))).
Qed.

(** ** Cancelers and hook calls along a history *)

Lemma deliver_canceler w t i :
  canceler <$> tasks (deliver w t) !! i = canceler <$> tasks w !! i.
Proof.
  unfold deliver.
  destruct (tasks w !! t) as [T|] eqn:ET; [|done].
  destruct (canceler T) as [|parent task|]; try done.
  assert (∀ rej x w1 o, then_wrapper w t rej x = (w1, o) →
    canceler <$> tasks (settle_with w1 t o) !! i = canceler <$> tasks w !! i)
    as Hgo.
  { intros rej x w1 o E. apply then_wrapper_log in E as (Ht & _ & _).
    rewrite settle_with_eq.
    rewrite (proj1 (proj2 (proj2 (base_settle_tree w1 t _ _)))). by rewrite Ht. }
  destruct (_state T); try done;
    (destruct (tasks w !! parent) as [P|]; [|done]);
    destruct (_state P); try done;
    match goal with |- context [let '(_, _) := ?c in _] =>
      destruct c as [w1 o] eqn:E end;
    eapply Hgo; eauto.
Qed.

Lemma exec_canceler w op t :
  (∀ t0, op ≠ OpCancel t0) → t < length (tasks w) →
  canceler <$> tasks (exec w op) !! t = canceler <$> tasks w !! t.
Proof.
  intros Hop Hlt.
  destruct op as [hook|t0 f g|t0 cb|t0|t0 v|t0 e|t0| |th|th]; cbn [exec].
  - simpl. by rewrite lookup_app_l.
  - destruct (then_ w t0 f g) as [[w' n]|] eqn:E; [|done]. simpl.
    pose proof (then_lookup _ _ _ _ _ _ E) as (-> & _).
    apply then_tree in E as (_ & -> & _). by rewrite decide_False by lia.
  - unfold finally_. destruct (then_ w t0 _ _) as [[w' n]|] eqn:E; [|done]. simpl.
    pose proof (then_lookup _ _ _ _ _ _ E) as (-> & _).
    rewrite alter_canceler by done.
    apply then_tree in E as (_ & -> & _). by rewrite decide_False by lia.
  - by destruct (Hop t0).
  - destruct (is_root w t0); [|done]. unfold wrapped_resolve, wrapped_settle.
    destruct (tasks w !! t0); [|done]. case_decide; [|done].
    by rewrite (proj1 (proj2 (proj2 (base_settle_tree _ t0 _ _)))).
  - destruct (is_root w t0); [|done]. unfold wrapped_reject, wrapped_settle.
    destruct (tasks w !! t0); [|done]. case_decide; [|done].
    by rewrite (proj1 (proj2 (proj2 (base_settle_tree _ t0 _ _)))).
  - apply deliver_canceler.
  - done.
  - done.
  - by rewrite (proj1 (react_tasks_log w th)).
Qed.

Lemma cancel_shape w t :
  reached w → shape (after w (Task_cancel w t)) = shape w.
Proof.
  intros Hre. destruct (state_of w t) as [s|] eqn:Hst.
  - destruct (decide (s = Pending)) as [->|Hs].
    + destruct (Task_cancel_Fired w t) as (o & _ & _ & Ho & HF);
        [apply Hre|done|].
      destruct HF as [e Hk|v d w' Hk HR|p s d w' Hk Hs Hne HR]; simpl; [done| |].
      * by rewrite (Run_shape _ _ _ _ _ HR).
      * by rewrite (Run_shape _ _ _ _ _ HR).
    + unfold Task_cancel, fuel_of. by rewrite (cancel_not_pending _ _ _ s).
  - unfold Task_cancel, fuel_of, state_of in *. simpl.
    by destruct (tasks w !! t).
Qed.

Lemma hook_calls_zero t (d : list Event) :
  (∀ e, e ∈ d → e ≠ EvHook t) → hook_calls t d = 0.
Proof. apply count_none. Qed.

Lemma hook_calls_cons t e l :
  hook_calls t (e :: l) = (if decide (e = EvHook t) then 1 else 0) + hook_calls t l.
Proof.
  unfold hook_calls. rewrite filter_cons. by case_decide.
Qed.

(** ** Forwarding through tasks without finalizer *)

Lemma plain_path_forward w d :
  (∀ p c fp, c ∈ kids w p → EvPropagate p fp ∈ d → hands_down w d p c fp) →
  ∀ p q fp, plain_path w p q → EvPropagate p fp ∈ d → EvPropagate q fp ∈ d.
Proof.
  intros Hh p q fp Hp. induction Hp as [|p c q Hf Hc _ IH]; [done|].
  intros He. apply IH. specialize (Hh p c fp Hc He).
  unfold hands_down in Hh. by rewrite Hf in Hh.
Qed.

Lemma Fired_hands_down w o c :
  Fired w o c →
  ∃ d hk, log (after w c) = d ++ hk ++ log w ∧
          (hk = [EvHook o] ∨ hk = []) ∧
          (∀ e, e ∈ d → propagation_event e) ∧
          (∀ e, e ∈ d → desc w o (ev_task e)) ∧
          (∀ p k fp, k ∈ kids w p → EvPropagate p fp ∈ d → hands_down w d p k fp).
Proof.
  intros [e Hk|v d w' Hk HR|p s d w' Hk Hs Hne HR]; simpl.
  - exists [], [EvHook o]. split; [done|]. split; [by left|].
    repeat split; intros; by elem_cases H || (elem_cases H0).
  - exists d, [EvHook o]. split; [by rewrite (Run_log _ _ _ _ _ HR)|].
    split; [by left|].
    split; [apply (proj1 Run_event_kinds _ _ _ _ _ HR)|].
    split.
    + intros e He. apply (proj1 Run_events_desc _ _ _ _ _ HR) in He.
      by apply (shape_desc (emit (EvHook o) w)).
    + intros q k fp Hin He.
      apply (hands_down_mono (emit (EvHook o) w) w d); [done..|].
      by apply (proj2 (proj1 Run_hands_down _ _ _ _ _ HR)).
  - exists d, []. split; [by rewrite (Run_log _ _ _ _ _ HR)|].
    split; [by right|].
    split; [apply (proj1 Run_event_kinds _ _ _ _ _ HR)|].
    split; [apply (proj1 Run_events_desc _ _ _ _ _ HR)|].
    apply (proj2 (proj1 Run_hands_down _ _ _ _ _ HR)).
Qed.

(** ** Finalizers during cancelation *)


Lemma node_events_in w i fi l : node_events w i fi l → EvPropagate i fi ∈ l.
Proof.
  unfold node_events.
  destruct (finalizer w i); [destruct (isThenable fi)|].
  - intros (? & ? & _ & ->). right. by left.
  - intros ->. right. by left.
  - intros ->. by left.
Qed.

Lemma about_elem t l e : e ∈ about t l → e ∈ l.
Proof. unfold about. by intros [_ ?]%list_elem_of_filter. Qed.

(** C7: whatever the finalizers of the subtree do, also when they throw,
    [_cancel] returns: it enters every task of the subtree and leaves it
    Canceled, changes no other task and no value or error, makes no task
    Rejected, calls no handler and no resolve or reject; below a finalizer
    that threw the children are entered with [undefined].  An exception
    that leaves [cancel()] is the cancel hook's, thrown before any
    finalizer ran; and a finalizer that runs later, when its thenable has
    settled, changes no task either. *)
Theorem finalizer_errors_are_discarded (w : World) (t : nat) (ft : Value) :
  wf w → t < length (tasks w) →
  ∃ d w', propagate w t ft = Some w' ∧ log w' = d ++ log w ∧
    (∀ i, desc w t i →
          state_of w' i = Some Canceled ∧ ∃ fi, EvPropagate i fi ∈ d) ∧
    (∀ i, ¬ desc w t i → tasks w' !! i = tasks w !! i) ∧
    (∀ i, result <$> tasks w' !! i = result <$> tasks w !! i) ∧
    (∀ i, state_of w' i = Some Rejected → state_of w i = Some Rejected) ∧
    (∀ e, e ∈ d → propagation_event e) ∧
    (∀ p c fp e, finalizer w p = Some (Throws e) → c ∈ kids w p →
                 EvPropagate p fp ∈ d → isThenable fp = false →
                 EvFinally p Canceled ∈ d ∧ EvPropagate c VUndefined ∈ d) ∧
    (state_of w t = Some Pending →
     ∀ e w'', Task_cancel w t = Abrupt e w'' →
              ∃ o, canceler <$> tasks w !! o = Some (RootCanceler o (Throws e)) ∧
                   w'' = emit (EvHook o) w) ∧
    (∀ th, tasks (react w' th) = tasks w').
Proof.
  intros Hwf Ht.
  destruct (propagate_total w t ft Hwf Ht) as (d & w' & E & HR).
  exists d, w'. split; [done|]. split; [by apply (Run_log _ _ _ _ _ HR)|].
  split; [|split; [|split; [|split; [|split; [|split; [|split]]]]]].
  - intros i Hd. split; [by apply (Run_state_canceled _ _ _ _ _ _ HR)|].
    destruct (proj1 Run_about _ _ _ _ _ HR Hwf i Hd) as (fi & Hn & _).
    exists fi. apply (about_elem i). by apply node_events_in with w.
  - intros i. by apply (Run_frame _ _ _ _ _ _ HR).
  - intros i. destruct (proj1 (proj1 Run_tasks _ _ _ _ _ HR) i) as [->|[_ ->]];
      [done|]. by destruct (tasks w !! i).
  - intros i. unfold state_of.
    destruct (proj1 (proj1 Run_tasks _ _ _ _ _ HR) i) as [->|[_ ->]]; [done|].
    by destruct (tasks w !! i).
  - apply (proj1 Run_event_kinds _ _ _ _ _ HR).
  - intros p c fp e Hf Hc Hin Hth.
    pose proof (proj2 (proj1 Run_hands_down _ _ _ _ _ HR) p c fp Hc Hin) as Hh.
    unfold hands_down in Hh. by rewrite Hf, Hth in Hh.
  - intros Hst e w'' EC.
    destruct (Task_cancel_Fired w t Hwf Hst) as (o & _ & _ & _ & HF).
    rewrite EC in HF. inversion HF; subst. eauto.
  - intros th. apply react_tasks_log.
Qed.

(** ** What a call of [cancel] does *)

Lemma plain_path_desc w p q : plain_path w p q → desc w p q.
Proof.
  induction 1 as [|p c q _ Hc _ IH]; [constructor|]. by eapply desc_step.
Qed.

Lemma Fired_cases w o c :
  Fired w o c →
  (∃ e, canceler <$> tasks w !! o = Some (RootCanceler o (Throws e)) ∧
        c = Abrupt e (emit (EvHook o) w)) ∨
  ((∀ e, canceler <$> tasks w !! o ≠ Some (RootCanceler o (Throws e))) ∧
   ∃ w', c = Normal w').
Proof.
  intros [e Hk|v d w' Hk HR|p s d w' Hk Hs Hne HR].
  - left. eauto.
  - right. split; [congruence|eauto].
  - right. split; [congruence|eauto].
Qed.

Lemma Run_visit w w0 o d w' :
  wf w → shape w0 = shape w → Run w0 o VUndefined d w' →
  (∀ e, e ∈ d → propagation_event e) ∧
  (∀ e, e ∈ d → desc w o (ev_task e)) ∧
  node_events w o VUndefined (about o d) ∧
  (∀ i, desc w o i →
        state_of w' i = Some Canceled ∧ ∃ fi, node_events w i fi (about i d)) ∧
  (∀ i, ¬ desc w o i → about i d = []) ∧
  (∀ p k fp, k ∈ kids w p → EvPropagate p fp ∈ d → hands_down w d p k fp) ∧
  parent_first w d.
Proof.
  intros Hwf Hs HR.
  assert (wf w0) as Hwf0 by (by apply (shape_wf w)).
  assert (∀ e, e ∈ d → desc w o (ev_task e)) as Hin.
  { intros e He. apply (shape_desc w0); [done|].
    by apply (proj1 Run_events_desc _ _ _ _ _ HR). }
  split; [apply (proj1 Run_event_kinds _ _ _ _ _ HR)|].
  split; [done|]. split; [|split; [|split; [|split]]].
  - destruct (proj1 Run_about _ _ _ _ _ HR Hwf0 o (desc_refl _ _))
      as (fo & Hn & Hfo).
    rewrite (Hfo eq_refl) in Hn. by apply (node_events_shape w0).
  - intros i Hi. apply (shape_desc w w0) in Hi; [|done].
    split; [by apply (Run_state_canceled _ _ _ _ _ _ HR)|].
    destruct (proj1 Run_about _ _ _ _ _ HR Hwf0 i Hi) as (fi & Hn & _).
    exists fi. by apply (node_events_shape w0).
  - intros i Hi. apply about_none. intros e He Heq.
    apply Hi. rewrite <- Heq. by apply Hin.
  - intros p k fp Hk He. apply (hands_down_mono w0 w d); [done..|].
    apply (proj2 (proj1 Run_hands_down _ _ _ _ _ HR)); [|done].
    by rewrite (shape_kids w0 w).
  - apply (parent_first_shape w0); [done|].
    by apply (proj1 Run_parent_first _ _ _ _ _ HR).
Qed.

(** A canceler that returns: the hook, if the task has one, is called
    first and once, and [_cancel] then goes through all of the subtree. *)
Lemma Fired_normal_visit w o w' :
  wf w → Fired w o (Normal w') →
  ∃ d hk,
    log w' = d ++ hk ++ log w ∧
    ((hk = [EvHook o] ∧
      ∃ h, canceler <$> tasks w !! o = Some (RootCanceler o h)) ∨
     (hk = [] ∧
      ∃ p, canceler <$> tasks w !! o = Some (ThenCanceler p o))) ∧
    (∀ e, e ∈ d → propagation_event e) ∧
    (∀ e, e ∈ d → desc w o (ev_task e)) ∧
    node_events w o VUndefined (about o d) ∧
    (∀ i, desc w o i →
          state_of w' i = Some Canceled ∧ ∃ fi, node_events w i fi (about i d)) ∧
    (∀ i, ¬ desc w o i → about i d = []) ∧
    (∀ p k fp, k ∈ kids w p → EvPropagate p fp ∈ d → hands_down w d p k fp) ∧
    parent_first w d.
Proof.
  intros Hwf HF.
  inversion HF as [|v d w'' Hk HR|p s d w'' Hk Hs Hne HR]; subst.
  - exists d, [EvHook o]. split; [by rewrite (Run_log _ _ _ _ _ HR)|].
    split; [left; eauto|]. by apply (Run_visit w (emit (EvHook o) w)).
  - exists d, []. split; [by rewrite (Run_log _ _ _ _ _ HR)|].
    split; [right; eauto|]. by apply (Run_visit w w).
Qed.

Lemma propagation_no_hook i (d : list Event) :
  (∀ e, e ∈ d → propagation_event e) → hook_calls i d = 0.
Proof.
  intros H. apply no_hook_calls. intros e He. apply H in He. by destruct e.
Qed.

(** For a child [c] made by [p.then(...)], with [c] and [p] both Pending,
    [c.cancel()] is [p.cancel()]: the canceler of the child calls the
    [cancel] of the parent.  Unless the cancel hook this reaches throws,
    the call returns with [p] and [c] both Canceled, and [c] was entered
    by [_cancel] once, with what [p] hands down to its children: it is
    Canceled by the propagation down from the parent only.  If the hook
    throws, the exception leaves the call and nothing has changed but the
    log.  In both cases [c] is not left Canceled with [p] Pending. *)
Lemma child_cancel_is_parent_cancel (w : World) (p c : nat) :
  wf w →
  canceler <$> tasks w !! c = Some (ThenCanceler p c) →
  state_of w c = Some Pending →
  state_of w p = Some Pending →
  Task_cancel w c = Task_cancel w p ∧
  ¬ (state_of (after w (Task_cancel w c)) c = Some Canceled ∧
     state_of (after w (Task_cancel w c)) p = Some Pending) ∧
  ∃ o, escalates w p o ∧ escalates w c o ∧ desc w o p ∧ c ∈ kids w p ∧
    ((∃ e, canceler <$> tasks w !! o = Some (RootCanceler o (Throws e)) ∧
           Task_cancel w c = Abrupt e (emit (EvHook o) w)) ∨
     ((∀ e, canceler <$> tasks w !! o ≠ Some (RootCanceler o (Throws e))) ∧
      ∃ w' d hk fp,
        Task_cancel w c = Normal w' ∧
        state_of w' p = Some Canceled ∧ state_of w' c = Some Canceled ∧
        log w' = d ++ hk ++ log w ∧
        (hk = [EvHook o] ∨ hk = []) ∧
        (∀ e, e ∈ d → propagation_event e) ∧
        EvPropagate p fp ∈ d ∧ hands_down w d p c fp ∧
        entries p d = 1 ∧ entries c d = 1)).
Proof.
  intros Hwf Hk Hc Hp.
  destruct (wf_then _ Hwf _ _ _ Hk) as [_ Hin].
  assert (Task_cancel w c = Task_cancel w p) as E.
  { pose proof (wf_range _ Hwf _ _ Hin) as Hr.
    unfold Task_cancel at 1. unfold fuel_of. simpl.
    unfold state_of in Hc.
    destruct (tasks w !! c) as [T|] eqn:ET; [|done].
    simpl in Hc, Hk. injection Hc as Hc. injection Hk as Hk.
    rewrite decide_True, Hk, Hp by done.
    apply cancel_fuel; [done..|lia]. }
  split; [done|]. rewrite E.
  destruct (Task_cancel_Fired w p Hwf Hp) as (o & He & Hd & _ & HF).
  assert (desc w o c) as Hdc
    by (apply desc_trans with p; [done|by apply desc_child]).
  split.
  - destruct (Fired_states _ _ _ HF) as [_ Hb].
    intros [H1 H2]. unfold state_of in *.
    destruct (Task_cancel w p) as [w'| |] eqn:EC; simpl in *.
    + rewrite (Hb w' eq_refl p Hd) in H2. by destruct (tasks w !! p).
    + inversion HF; subst. simpl in H1. rewrite H1 in Hc. done.
    + rewrite H1 in Hc. done.
  - exists o. split; [done|]. split; [by eapply esc_up|].
    split; [done|]. split; [done|].
    destruct (Fired_cases _ _ _ HF) as [?|[Hne [w' EC]]]; [by left|right].
    split; [done|]. rewrite EC in HF.
    destruct (Fired_normal_visit _ _ _ Hwf HF)
      as (d & hk & Hlog & Hhk & Hkind & _ & _ & Hvis & _ & Hh & _).
    destruct (Hvis p Hd) as (Hsp & fp & Hnp).
    destruct (Hvis c Hdc) as (Hsc & fc & Hnc).
    pose proof (about_elem _ _ _ (node_events_in _ _ _ _ Hnp)) as Hinp.
    exists w', d, hk, fp. split; [done|]. split; [done|]. split; [done|].
    split; [done|].
    split; [destruct Hhk as [[-> _]|[-> _]]; [by left|by right]|].
    split; [done|]. split; [done|]. split; [by apply Hh|].
    rewrite <- (entries_about p), <- (entries_about c).
    split; by eapply node_events_entries.
Qed.


(** C10: in [cancel()] on a Pending task [t], the only cancel hook called
    is that of the task [o] where the cancelation starts ([t], or the
    ancestor its cancelers go up to), once and before anything else, and
    only if [o] was made by the constructor; [_cancel] calls no hook.
    Unless that hook throws, the call returns and [_cancel] has entered
    every task at or below [o] exactly once and left it Canceled, calling
    its finalizer, or attaching it to the thenable it was entered with.
    Every task enters its children with the result of its own finalizer,
    and a task without finalizer with the finally-result it was entered
    with: the result goes unchanged through any number of tasks without
    finalizer, and the next task with a finalizer is entered with it. *)
Theorem propagation_forwards_and_skips_hooks (w : World) (t : nat) :
  wf w → state_of w t = Some Pending →
  ∃ o d hk,
    escalates w t o ∧ desc w o t ∧
    log (after w (Task_cancel w t)) = d ++ hk ++ log w ∧
    ((hk = [EvHook o] ∧
      ∃ h, canceler <$> tasks w !! o = Some (RootCanceler o h)) ∨
     (hk = [] ∧
      ∃ p, canceler <$> tasks w !! o = Some (ThenCanceler p o))) ∧
    (∀ i, hook_calls i d = 0) ∧
    (∀ i, i ≠ o → hook_calls i (d ++ hk) = 0) ∧
    (∀ p c fp, finalizer w p = None → c ∈ kids w p →
               EvPropagate p fp ∈ d → EvPropagate c fp ∈ d) ∧
    (∀ p q fp, plain_path w p q →
               EvPropagate p fp ∈ d → EvPropagate q fp ∈ d) ∧
    ((∃ e, canceler <$> tasks w !! o = Some (RootCanceler o (Throws e)) ∧
           Task_cancel w t = Abrupt e (emit (EvHook o) w) ∧ d = []) ∨
     ((∀ e, canceler <$> tasks w !! o ≠ Some (RootCanceler o (Throws e))) ∧
      ∃ w', Task_cancel w t = Normal w' ∧
        node_events w o VUndefined (about o d) ∧
        (∀ i, desc w o i →
              state_of w' i = Some Canceled ∧
              ∃ fi, node_events w i fi (about i d)) ∧
        (∀ p c fp, c ∈ kids w p → EvPropagate p fp ∈ d →
                   hands_down w d p c fp) ∧
        (∀ p q fp, plain_path w p q → EvPropagate p fp ∈ d →
                   node_events w q fp (about q d)))).
Proof.
  intros Hwf Hst.
  destruct (Task_cancel_Fired w t Hwf Hst) as (o & He & Hd & Ho & HF).
  exists o.
  destruct (Fired_cases _ _ _ HF) as [(e & Hk & EC)|[Hne [w' EC]]].
  - exists [], [EvHook o]. split; [done|]. split; [done|].
    split; [by rewrite EC|]. split; [left; eauto|].
    split; [done|]. split.
    { intros i Hi. simpl. rewrite hook_calls_cons, decide_False; [done|congruence]. }
    split; [intros p c fp _ _ H; by apply elem_of_nil in H|].
    split; [intros p q fp _ H; by apply elem_of_nil in H|].
    left. eauto.
  - rewrite EC in HF.
    destruct (Fired_normal_visit _ _ _ Hwf HF)
      as (d & hk & Hlog & Hhk & Hkind & Hin & Hno & Hvis & _ & Hh & _).
    assert (∀ p q fp, plain_path w p q →
                      EvPropagate p fp ∈ d → EvPropagate q fp ∈ d) as Hpath
      by (by apply plain_path_forward).
    exists d, hk. split; [done|]. split; [done|].
    split; [by rewrite EC|]. split; [done|].
    split; [intros i; by apply propagation_no_hook|].
    split.
    { intros i Hi. rewrite hook_calls_app, propagation_no_hook by done.
      destruct Hhk as [[-> _]|[-> _]]; [|done].
      rewrite hook_calls_cons, decide_False; [done|congruence]. }
    split.
    { intros p c fp Hf Hc Hp. specialize (Hh p c fp Hc Hp).
      unfold hands_down in Hh. by rewrite Hf in Hh. }
    split; [done|]. right. split; [done|].
    exists w'. split; [done|]. split; [done|]. split; [done|].
    split; [done|].
    intros p q fp Hpq Hp.
    pose proof (Hpath p q fp Hpq Hp) as Hq.
    assert (desc w o q) as Hoq.
    { apply desc_trans with p; [apply (Hin _ Hp)|by apply plain_path_desc]. }
    destruct (Hvis q Hoq) as (_ & fq & Hnq).
    assert (EvPropagate q fp ∈ about q d) as Hqa.
    { unfold about. apply list_elem_of_filter. by split. }
    by rewrite (node_events_value _ _ _ _ _ Hnq Hqa).
Qed.

(** ** Hooks that throw, and hooks that call back *)

(** With hooks that make no call, [cancel_calling] is [cancel]. *)
Lemma cancel_calling_plain fuel w t : cancel_calling [] fuel w t = cancel fuel w t.
Proof.
  revert w t. induction fuel as [|fuel IH]; intros w t; [done|]. simpl.
  destruct (tasks w !! t) as [T|]; [|done].
  case_decide; [|done].
  destruct (canceler T) as [self hook|parent task|]; [done| |done].
  destruct (state_of w parent) as [[]|]; by rewrite ?IH.
Qed.

Lemma Task_cancel_calling_plain w t : Task_cancel_calling [] w t = Task_cancel w t.
Proof.
  unfold Task_cancel_calling, Task_cancel. cbn [concat length].
  rewrite Nat.mul_1_r. apply cancel_calling_plain.
Qed.

(** C2 does not hold of the code: the closure of the constructor calls
    the hook before [this._cancel()], while the task is still Pending.
    When the hook of task 0 throws, [cancel()] on task 0 ends there: the
    finalizer of task 1, made from task 0 with [finally], is neither
    called nor attached, and both tasks stay Pending.  When the hook calls
    [cancel()] on its task and returns, [_cancel] runs twice and the
    finalizer is called twice in the one [cancel()]. *)
Theorem cancel_skips_or_repeats_finalizer :
  (state_of (run [OpNew (Throws VTypeError); OpFinally 0 (Returns VUndefined)]) 0
     = Some Pending ∧
   finalizer (run aborted_cancel_history) 1 = Some (Returns VUndefined) ∧
   log (run aborted_cancel_history) = [EvHook 0] ∧
   finalizer_uses 1 (log (run aborted_cancel_history)) = 0 ∧
   state_of (run aborted_cancel_history) 0 = Some Pending ∧
   state_of (run aborted_cancel_history) 1 = Some Pending) ∧
  (state_of finally_world 0 = Some Pending ∧
   finalizer finally_world 1 = Some (Returns (VData 1)) ∧
   ∃ w', Task_cancel_calling hook_cancels_again finally_world 0 = Normal w' ∧
         log w' = [EvFinally 1 Canceled; EvPropagate 1 VUndefined;
                   EvPropagate 0 VUndefined;
                   EvFinally 1 Canceled; EvPropagate 1 VUndefined;
                   EvPropagate 0 VUndefined;
                   EvHook 0; EvHook 0] ∧
         finalizer_uses 1 (log w') = 2).
Proof.
  split; [repeat split; reflexivity|].
  split; [reflexivity|]. split; [reflexivity|].
  eexists. split; [vm_compute; reflexivity|]. split; reflexivity.
Qed.

(** C8 does not hold of the code: [cancel()] tests that the task is
    Pending before the hook runs, and [_cancel] assigns Canceled after it,
    without a test.  The hook of task 0 calls the [resolve] of its task,
    which is Pending and becomes Fulfilled with 1, and returns; [_cancel]
    then moves the Fulfilled task to Canceled, its value still in place. *)
Theorem fulfilled_task_becomes_canceled :
  state_of root_world 0 = Some Pending ∧
  ∃ w1 w',
    run_calls (cancel_calling hook_resolves (fuel_of root_world))
              [CallResolve 0 (VData 1)] (emit (EvHook 0) root_world)
      = Normal w1 ∧
    state_of w1 0 = Some Fulfilled ∧
    propagate w1 0 VUndefined = Some w' ∧
    Task_cancel_calling hook_resolves root_world 0 = Normal w' ∧
    state_of w' 0 = Some Canceled ∧
    result <$> tasks w' !! 0 = Some (Some (VData 1)) ∧
    log w' = [EvPropagate 0 VUndefined; EvResolve 0 false (VData 1); EvHook 0].
Proof.
  split; [reflexivity|].
  eexists _, _. split; [vm_compute; reflexivity|].
  split; [reflexivity|]. split; [vm_compute; reflexivity|].
  repeat split; reflexivity.
Qed.

(** C9 does not hold of the code: the state that [cancel()] tests is
    assigned by [_cancel], after the hook has returned.  A hook that
    throws leaves its task Pending, and the next [cancel()] calls it
    again.  A hook that calls [cancel()] on its task and returns is
    called a second time inside the first call, before [_cancel] has run:
    one [cancel()] on a Pending root calls its hook twice. *)
Theorem cancel_hook_runs_twice :
  (state_of (run [OpNew (Throws VTypeError)]) 0 = Some Pending ∧
   state_of (run [OpNew (Throws VTypeError); OpCancel 0]) 0 = Some Pending ∧
   hook_calls 0 (log (run [OpNew (Throws VTypeError); OpCancel 0])) = 1 ∧
   hook_calls 0 (log (run throwing_hook_history)) = 2) ∧
  (state_of root_world 0 = Some Pending ∧
   hook_calls 0 (log root_world) = 0 ∧
   ∃ w', Task_cancel_calling hook_cancels_again root_world 0 = Normal w' ∧
         state_of w' 0 = Some Canceled ∧
         log w' = [EvPropagate 0 VUndefined; EvPropagate 0 VUndefined;
                   EvHook 0; EvHook 0] ∧
         hook_calls 0 (log w') = 2).
Proof.
  split; [repeat split; reflexivity|].
  split; [reflexivity|]. split; [reflexivity|].
  eexists. split; [vm_compute; reflexivity|]. repeat split; reflexivity.
Qed.

(** ** Omitted handlers *)

Lemma then_wrapper_omitted w task (rejected : bool) x T :
  tasks w !! task = Some T → _state T ≠ Canceled →
  (if rejected then then_onRejected T else then_onFulfilled T) = None →
  then_wrapper w task rejected x = (w, Throws VTypeError).
Proof.
  intros ET Hs Hh. unfold then_wrapper, call_handler.
  rewrite ET, decide_True by done. by rewrite Hh.
Qed.

(** C5 does not hold of the code: the wrappers of [then] call the handler
    without testing that it was given.  With [onFulfilled] omitted the
    child of a task fulfilled with 5 is Rejected with a TypeError and not
    Fulfilled with 5; with [onRejected] omitted the child of a task
    rejected with 7 is Rejected with a TypeError and not with 7. *)
Theorem omitted_handler_throws_TypeError :
  state_of (run omitted_onFulfilled_history) 0 = Some Fulfilled ∧
  result <$> tasks (run omitted_onFulfilled_history) !! 0
    = Some (Some (VData 5)) ∧
  state_of (run omitted_onFulfilled_history) 1 = Some Rejected ∧
  result <$> tasks (run omitted_onFulfilled_history) !! 1
    = Some (Some VTypeError) ∧
  state_of (run omitted_onRejected_history) 0 = Some Rejected ∧
  result <$> tasks (run omitted_onRejected_history) !! 0
    = Some (Some (VData 7)) ∧
  state_of (run omitted_onRejected_history) 1 = Some Rejected ∧
  result <$> tasks (run omitted_onRejected_history) !! 1
    = Some (Some VTypeError).
Proof. repeat split; reflexivity. Qed.

(** * The theorems at concrete worlds *)

Lemma run_wf ops : wf (run ops).
Proof. apply reached_wf, run_reached. Qed.

Lemma propagation_forwards_and_skips_hooks_witness :
  state_of skipping_world 3 = Some Pending ∧
  ∃ w' d, Task_cancel skipping_world 3 = Normal w' ∧
          log w' = d ++ [EvHook 0] ++ log skipping_world ∧
          (∀ i, hook_calls i d = 0) ∧
          state_of w' 0 = Some Canceled ∧ state_of w' 3 = Some Canceled ∧
          about 3 d = [EvFinally 3 Canceled; EvPropagate 3 (VData 3)].
Proof.
  split; [reflexivity|].
  destruct (propagation_forwards_and_skips_hooks skipping_world 3)
    as (o & d & hk & He & Hd & Hlog & Hhk & Hd0 & _ & Hf & _ & Hcase);
    [apply run_wf|reflexivity|].
  assert (escalates skipping_world 3 0) as H0.
  { eapply esc_up; [reflexivity..|]. eapply esc_up; [reflexivity..|].
    eapply esc_up; [reflexivity..|]. eapply esc_root. reflexivity. }
  pose proof (escalates_det _ _ _ _ He H0) as ->.
  destruct Hcase as [(e & Hk & _)|(_ & w' & EC & Hno & Hvis & Hh & Hpp)].
  { vm_compute in Hk. discriminate Hk. }
  destruct Hhk as [[-> _]|[_ [p Hk]]]; [|vm_compute in Hk; discriminate Hk].
  rewrite EC in Hlog. simpl in Hlog.
  exists w', d. split; [exact EC|]. split; [exact Hlog|]. split; [exact Hd0|].
  split; [apply Hvis; constructor|]. split; [apply Hvis; exact Hd|].
  pose proof (about_elem _ _ _ (node_events_in _ _ _ _ Hno)) as H00.
  assert (EvPropagate 1 VUndefined ∈ d) as H1.
  { apply (Hf 0 1 VUndefined); [reflexivity| |exact H00].
    vm_compute. apply list_elem_of_here. }
  assert (EvPropagate 2 (VData 3) ∈ d) as H2.
  { assert (2 ∈ kids skipping_world 1) as Hk
      by (vm_compute; apply list_elem_of_here).
    apply (Hh 1 2 VUndefined Hk H1). }
  apply (Hpp 2 3 (VData 3)); [|exact H2].
  eapply plain_step; [reflexivity| |apply plain_refl].
  vm_compute. apply list_elem_of_here.
Defined.

Lemma cancel_not_pending_noop_witness :
  state_of fulfilled_world 0 = Some Fulfilled ∧
  Task_cancel fulfilled_world 0 = Normal fulfilled_world ∧
  exec fulfilled_world (OpCancel 0) = fulfilled_world.
Proof.
  split; [reflexivity|].
  apply (cancel_not_pending_noop fulfilled_world 0 Fulfilled);
    [reflexivity|discriminate].
Defined.


Lemma canceled_task_callbacks_never_run_witness :
  state_of (run [OpNew (Returns VUndefined); OpThen 0 (Some pass_on) None;
                 OpCancel 1]) 1 = Some Canceled ∧
  handler_calls 1
    (log (run ([OpNew (Returns VUndefined); OpThen 0 (Some pass_on) None;
                OpCancel 1] ++ [OpResolve 0 (VData 1); OpDeliver 1])))
  = handler_calls 1
      (log (run [OpNew (Returns VUndefined); OpThen 0 (Some pass_on) None;
                 OpCancel 1])).
Proof.
  split; [reflexivity|].
  apply (canceled_task_callbacks_never_run
           [OpNew (Returns VUndefined); OpThen 0 (Some pass_on) None; OpCancel 1]
           [OpResolve 0 (VData 1); OpDeliver 1] 1).
  reflexivity.
Defined.

Lemma finalizer_errors_are_discarded_witness :
  finalizer throwing_finalizer_world 1 = Some (Throws VTypeError) ∧
  0 < length (tasks throwing_finalizer_world) ∧
  ∃ d w', propagate throwing_finalizer_world 0 VUndefined = Some w' ∧
          log w' = d ++ log throwing_finalizer_world ∧
          state_of w' 2 = Some Canceled.
Proof.
  split; [reflexivity|]. split; [vm_compute; lia|].
  destruct (finalizer_errors_are_discarded throwing_finalizer_world 0 VUndefined)
    as (d & w' & E & Hlog & Hd & _); [apply run_wf|vm_compute; lia|].
  exists d, w'. split; [exact E|]. split; [exact Hlog|].
  apply Hd. eapply desc_step; [|apply desc_child].
  - vm_compute. apply list_elem_of_here.
  - vm_compute. apply list_elem_of_here.
Defined.

(** * Further properties of the code *)

(** ** The tree only grows *)

Lemma extends_refl T : extends T T.
Proof. by repeat split. Qed.

Lemma extends_trans T1 T2 T3 : extends T1 T2 → extends T2 T3 → extends T1 T3.
Proof.
  intros (? & ? & ? & ? & ?) (? & ? & ? & ? & ?).
  repeat split; try congruence. by etrans.
Qed.

Lemma extends_shape T T' :
  with_state Pending T' = with_state Pending T → extends T T'.
Proof.
  destruct T, T'. unfold with_state. simpl. intros [=]. subst.
  by repeat split.
Qed.

Lemma alter_extends (f : Task → Task) i (l : list Task) t T :
  (∀ T0, extends T0 (f T0)) → l !! t = Some T →
  ∃ T', alter f i l !! t = Some T' ∧ extends T T'.
Proof.
  intros Hf E. destruct (decide (i = t)) as [->|Hne].
  - rewrite list_lookup_alter_eq, E. simpl. eauto.
  - rewrite list_lookup_alter_ne by done. eauto using extends_refl.
Qed.

Lemma extends_settle (s : State) x T0 :
  extends T0 (if decide (_state T0 = Pending) then with_settled s x T0 else T0).
Proof. case_decide; by repeat split. Qed.

Lemma extends_child n T0 : extends T0 (with_child n T0).
Proof. repeat split. simpl. by apply prefix_app_r. Qed.

Lemma deliver_extends w t i T :
  tasks w !! i = Some T → ∃ T', tasks (deliver w t) !! i = Some T' ∧ extends T T'.
Proof.
  intros Ei. unfold deliver.
  destruct (tasks w !! t) as [Tt|] eqn:ET; [|eauto using extends_refl].
  destruct (canceler Tt) as [|parent task|]; eauto using extends_refl.
  assert (∀ rej x w1 o, then_wrapper w t rej x = (w1, o) →
    ∃ T', tasks (settle_with w1 t o) !! i = Some T' ∧ extends T T') as Hgo.
  { intros rej x w1 o E. apply then_wrapper_log in E as (Ht & _ & _).
    rewrite settle_with_eq. unfold base_settle. simpl. rewrite Ht.
    apply alter_extends; [|done]. intros T0. apply extends_settle. }
  destruct (_state Tt); eauto using extends_refl;
    (destruct (tasks w !! parent) as [P|]; [|eauto using extends_refl]);
    destruct (_state P); eauto using extends_refl;
    match goal with |- context [let '(_, _) := ?c in _] =>
      destruct c as [w1 o] eqn:E end;
    eapply Hgo; eauto.
Qed.

Lemma exec_extends w op t T :
  reached w → tasks w !! t = Some T →
  ∃ T', tasks (exec w op) !! t = Some T' ∧ extends T T'.
Proof.
  intros Hre Et. pose proof (lookup_lt_Some _ _ _ Et) as Hlt.
  destruct op as [hook|t0 f g|t0 cb|t0|t0 v|t0 e|t0| |th|th]; cbn [exec].
  - exists T. split; [|apply extends_refl]. simpl. by rewrite lookup_app_l.
  - destruct (then_ w t0 f g) as [[w' n]|] eqn:E; simpl;
      [|eauto using extends_refl].
    apply then_lookup in E as (-> & _ & _ & _ & _ & Hi). rewrite Hi.
    rewrite decide_False by lia. case_decide; [|eauto using extends_refl].
    subst. rewrite Et. simpl. eauto using extends_child.
  - unfold finally_. destruct (then_ w t0 _ _) as [[w' n]|] eqn:E; simpl;
      [|eauto using extends_refl].
    apply then_lookup in E as (-> & _ & _ & _ & _ & Hi).
    rewrite list_lookup_alter_ne by lia. rewrite Hi.
    rewrite decide_False by lia. case_decide; [|eauto using extends_refl].
    subst. rewrite Et. simpl. eauto using extends_child.
  - pose proof (shape_lookup _ _ t (cancel_shape w t0 Hre)) as Hs.
    rewrite Et in Hs. simpl in Hs.
    destruct (tasks (after w (Task_cancel w t0)) !! t) as [T'|]; [|done].
    simpl in Hs. exists T'. split; [done|].
    apply extends_shape. unfold with_state in *. congruence.
  - destruct (is_root w t0); [|eauto using extends_refl].
    unfold wrapped_resolve, wrapped_settle.
    destruct (tasks w !! t0); [|eauto using extends_refl].
    case_decide; [|eauto using extends_refl].
    unfold base_settle. simpl. apply alter_extends; [|done].
    intros T0. apply extends_settle.
  - destruct (is_root w t0); [|eauto using extends_refl].
    unfold wrapped_reject, wrapped_settle.
    destruct (tasks w !! t0); [|eauto using extends_refl].
    case_decide; [|eauto using extends_refl].
    unfold base_settle. simpl. apply alter_extends; [|done].
    intros T0. apply extends_settle.
  - by apply deliver_extends.
  - eauto using extends_refl.
  - eauto using extends_refl.
  - rewrite (proj1 (react_tasks_log w th)). eauto using extends_refl.
Qed.

Lemma foldl_extends w ops t T :
  reached w → tasks w !! t = Some T →
  ∃ T', tasks (foldl exec w ops) !! t = Some T' ∧ extends T T'.
Proof.
  revert w T. induction ops as [|op ops IH]; intros w T Hre Et; simpl;
    [eauto using extends_refl|].
  destruct (exec_extends w op t T Hre Et) as (T1 & E1 & H1).
  destruct (IH _ T1 (exec_reached w op Hre) E1) as (T2 & E2 & H2).
  eauto using extends_trans.
Qed.

(** X1: along every history a task, once made, stays in the arena with
    the canceler, the finalizer and the handlers it was made with, and its
    children are only ever added at the end: no operation, cancelation
    included, removes or reorders a registered child or replaces a
    callback. *)
Theorem tasks_only_grow (ops ops' : list Op) (t : nat) (T : Task) :
  tasks (run ops) !! t = Some T →
  ∃ T', tasks (run (ops ++ ops')) !! t = Some T' ∧
        canceler T' = canceler T ∧ _finally T' = _finally T ∧
        then_onFulfilled T' = then_onFulfilled T ∧
        then_onRejected T' = then_onRejected T ∧
        children T `prefix_of` children T'.
Proof.
  intros Et. rewrite run_app.
  destruct (foldl_extends _ ops' t T (run_reached ops) Et) as (T' & E & H).
  exists T'. split; [done|]. apply H.
Qed.

(** ** Histories build forests *)

Lemma desc_antisym w a b : wf w → desc w a b → desc w b a → a = b.
Proof.
  intros Hwf H1 H2. apply (desc_le _ _ _ Hwf) in H1, H2. lia.
Qed.

(** X2: in every world a history reaches the tasks form a forest: a
    registered child is younger than its parent, exists, is registered
    once and under one parent only, and its canceler is the closure [then]
    made for that parent; conversely a task with such a canceler is
    registered under the parent the closure names; no task keeps the empty
    canceler of [Task.copy]; and no task is below itself. *)
Theorem histories_build_forests (ops : list Op) :
  (∀ p c, c ∈ kids (run ops) p →
          p < c < length (tasks (run ops)) ∧
          canceler <$> tasks (run ops) !! c = Some (ThenCanceler p c)) ∧
  (∀ p, NoDup (kids (run ops) p)) ∧
  (∀ p p' c, c ∈ kids (run ops) p → c ∈ kids (run ops) p' → p = p') ∧
  (∀ c p c', canceler <$> tasks (run ops) !! c = Some (ThenCanceler p c') →
             c' = c ∧ c ∈ kids (run ops) p) ∧
  (∀ t self hook,
     canceler <$> tasks (run ops) !! t = Some (RootCanceler self hook) →
     self = t ∧ ∀ p, t ∉ kids (run ops) p) ∧
  (∀ t, canceler <$> tasks (run ops) !! t ≠ Some NoopCanceler) ∧
  (∀ a b, desc (run ops) a b → desc (run ops) b a → a = b).
Proof.
  pose proof (reached_wf _ (run_reached ops)) as Hwf.
  split; [|split; [|split; [|split; [|split; [|split]]]]].
  - intros p c Hc. split; [by apply (wf_range _ Hwf)|by apply (wf_child _ Hwf)].
  - apply (wf_nodup _ Hwf).
  - intros p p' c. by apply kids_parent_unique.
  - apply (wf_then _ Hwf).
  - intros t self hook Hk. split; [by apply (wf_root _ Hwf) in Hk|].
    intros p Hin. apply (wf_child _ Hwf) in Hin. congruence.
  - apply (wf_noop _ Hwf).
  - intros a b. by apply desc_antisym.
Qed.

(** ** Canceling twice *)

(** X3: a [cancel()] that returns normally leaves a world in which the
    same [cancel()] does nothing: the task is then Canceled (or was
    settled before), so a second call changes no state and calls no hook
    and no finalizer. *)
Theorem cancel_twice_is_cancel_once (w w' : World) (t : nat) :
  wf w → Task_cancel w t = Normal w' → Task_cancel w' t = Normal w'.
Proof.
  intros Hwf EC.
  destruct (state_of w t) as [s|] eqn:Hst.
  - destruct (decide (s = Pending)) as [->|Hs].
    + destruct (Task_cancel_Fired w t Hwf Hst) as (o & _ & Hd & _ & HF).
      rewrite EC in HF.
      pose proof (proj2 (Fired_states _ _ _ HF) w' eq_refl t Hd) as Ht.
      unfold Task_cancel, fuel_of.
      apply (cancel_not_pending _ _ _ Canceled); [|done].
      unfold state_of in *. rewrite Ht. by destruct (tasks w !! t).
    + unfold Task_cancel, fuel_of in EC.
      rewrite (cancel_not_pending _ _ _ s) in EC by done. injection EC as <-.
      unfold Task_cancel, fuel_of. by apply (cancel_not_pending _ _ _ s).
  - unfold Task_cancel, fuel_of, state_of in *. simpl in EC.
    by destruct (tasks w !! t).
Qed.

(** ** Where a cancelation starts *)



(** ** Siblings *)


(** ** Every task of the subtree is entered once *)


(** ** With and without thenables *)

Lemma plain_results_kid w t c : c ∈ kids w t → plain_results w t → plain_results w c.
Proof. intros Hc H i cb Hd. apply H. by eapply desc_step. Qed.

Lemma plain_results_shape w w' t :
  shape w = shape w' → plain_results w t → plain_results w' t.
Proof.
  intros Hs H i cb Hd Hf. apply (H i cb); [by apply (shape_desc w')|].
  by rewrite (shape_finalizer w w').
Qed.

Lemma Run_immediate :
  (∀ w t ft d w', Run w t ft d w' →
     isThenable ft = false → plain_results w t →
     thenables w' = thenables w ∧ ∀ e, e ∈ d → immediate_event e) ∧
  (∀ w cs ft d w', RunKids w cs ft d w' →
     isThenable ft = false → (∀ c, c ∈ cs → plain_results w c) →
     thenables w' = thenables w ∧ ∀ e, e ∈ d → immediate_event e).
Proof.
  apply Run_RunKids_ind.
  - intros w t ft T w2 ft' own kd w' ET EF Hown HK IH Hft Hpl.
    pose proof (step_shape _ _ _ _ _ _ EF) as Hs.
    destruct (own_events _ _ _ _ _ _ _ ET EF Hown) as [Hn Hft'].
    assert (finalizer w t = _finally T) as Hfin
      by (unfold finalizer; by rewrite ET).
    unfold node_events in Hn. rewrite Hfin, Hft in Hn. rewrite Hft in Hft'.
    assert (thenables w2 = thenables w ∧ isThenable ft' = false) as [Ht2 Hft2].
    { unfold finally_step in EF. destruct (_finally T) as [cb|] eqn:Ecb.
      - rewrite Hft in EF. unfold runFinally in EF. subst ft'. split.
        + injection EF as <-.
          by case_match.
        + apply (Hpl t cb); [constructor|by rewrite Hfin].
      - injection EF as <- <-. done. }
    destruct IH as [IHt IHe]; [done| |].
    { intros c Hc. apply (plain_results_shape w); [done|].
      apply plain_results_kid with t; [by erewrite kids_lookup|done]. }
    split; [congruence|].
    intros e [He|He]%elem_of_app; [by apply IHe|].
    destruct (_finally T); subst own; by elem_cases He.
  - intros w ft _ _. split; [done|]. intros e He. by apply elem_of_nil in He.
  - intros w c cs ft d1 w1 d2 w2 HR IH1 HK IH2 Hft Hpl.
    apply Run_shape in HR as Hs.
    destruct IH1 as [IH1t IH1e]; [done|apply Hpl; by left|].
    destruct IH2 as [IH2t IH2e]; [done| |].
    { intros c' Hc'. apply (plain_results_shape w); [done|]. apply Hpl. by right. }
    split; [congruence|].
    intros e [He|He]%elem_of_app; auto.
Qed.

(** X7: when [_cancel] is entered with a value that is no thenable and no
    finalizer at or below the task returns a thenable, the whole
    cancelation is synchronous: every finalizer of the subtree is called
    during the call, exactly once and seeing its task Canceled, nothing is
    attached to a thenable, and the thenables are left as they were. *)
Theorem cancel_without_thenables_is_synchronous (w : World) (t : nat) (ft : Value) :
  wf w → t < length (tasks w) →
  isThenable ft = false → plain_results w t →
  ∃ d w', propagate w t ft = Some w' ∧ log w' = d ++ log w ∧
          thenables w' = thenables w ∧
          (∀ e, e ∈ d → immediate_event e) ∧
          (∀ i cb, desc w t i → finalizer w i = Some cb →
                   ∃ fi, isThenable fi = false ∧
                         about i d = [EvFinally i Canceled; EvPropagate i fi]).
Proof.
  intros Hwf Ht Hft Hpl.
  destruct (propagate_total w t ft Hwf Ht) as (d & w' & E & HR).
  destruct (proj1 Run_immediate _ _ _ _ _ HR Hft Hpl) as [Hth Hev].
  exists d, w'. split; [done|]. split; [by apply (Run_log _ _ _ _ _ HR)|].
  split; [done|]. split; [done|].
  intros i cb Hd Hf.
  destruct (proj1 Run_about _ _ _ _ _ HR Hwf i Hd) as (fi & Hn & _).
  assert (isThenable fi = false) as Hfi.
  { apply node_events_in, about_elem, Hev in Hn. done. }
  unfold node_events in Hn. rewrite Hf, Hfi in Hn. eauto.
Qed.

Lemma Run_waiting :
  (∀ w t ft d w', Run w t ft d w' →
     isThenable ft = true → ∀ e, e ∈ d → waiting_event e) ∧
  (∀ w cs ft d w', RunKids w cs ft d w' →
     isThenable ft = true → ∀ e, e ∈ d → waiting_event e).
Proof.
  apply Run_RunKids_ind.
  - intros w t ft T w2 ft' own kd w' ET EF Hown HK IH Hft e He.
    destruct (own_events _ _ _ _ _ _ _ ET EF Hown) as [Hn Hft'].
    assert (finalizer w t = _finally T) as Hfin
      by (unfold finalizer; by rewrite ET).
    unfold node_events in Hn. rewrite Hfin, Hft in Hn. rewrite Hft in Hft'.
    assert (isThenable ft' = true) as Hft2.
    { destruct (_finally T); [|by subst].
      by destruct Hft' as (th & out & _ & -> & _). }
    apply elem_of_app in He as [He|He]; [by apply IH|].
    destruct (_finally T).
    + destruct Hn as (th & out & -> & ->). by elem_cases He.
    + subst own. by elem_cases He.
  - intros w ft _ e He. by apply elem_of_nil in He.
  - intros w c cs ft d1 w1 d2 w2 HR IH1 HK IH2 Hft e He.
    apply elem_of_app in He as [He|He]; auto.
Qed.

(** X8: when [_cancel] is entered with a thenable, no finalizer of the
    subtree is called during the call: every task at or below is entered
    with a thenable, and each finalizer is attached once, with [then], to
    the thenable its task is entered with; the finalizer of the task
    [_cancel] was called on is attached to the thenable passed in. *)
Theorem cancel_with_thenable_calls_no_finalizer (w : World) (t th : nat) :
  wf w → t < length (tasks w) →
  ∃ d w', propagate w t (VThenable th) = Some w' ∧ log w' = d ++ log w ∧
          (∀ e, e ∈ d → waiting_event e) ∧
          (∀ i s, EvFinally i s ∉ d) ∧
          (∀ i cb, desc w t i → finalizer w i = Some cb →
                   ∃ th' out, about i d =
                     [EvAttach i th' out; EvPropagate i (VThenable th')]) ∧
          (∀ cb, finalizer w t = Some cb →
                 ∃ out, about t d =
                   [EvAttach t th out; EvPropagate t (VThenable th)]).
Proof.
  intros Hwf Ht.
  destruct (propagate_total w t (VThenable th) Hwf Ht) as (d & w' & E & HR).
  pose proof (proj1 Run_waiting _ _ _ _ _ HR eq_refl) as Hev.
  exists d, w'. split; [done|]. split; [by apply (Run_log _ _ _ _ _ HR)|].
  split; [done|]. split; [|split].
  - intros i s He. by apply Hev in He.
  - intros i cb Hd Hf.
    destruct (proj1 Run_about _ _ _ _ _ HR Hwf i Hd) as (fi & Hn & _).
    assert (isThenable fi = true) as Hfi.
    { apply node_events_in, about_elem, Hev in Hn. done. }
    unfold node_events in Hn. rewrite Hf, Hfi in Hn.
    destruct Hn as (th' & out & -> & ->). eauto.
  - intros cb Hf.
    destruct (proj1 Run_about _ _ _ _ _ HR Hwf t (desc_refl w t))
      as (fi & Hn & Hfi).
    rewrite (Hfi eq_refl) in Hn. unfold node_events in Hn. rewrite Hf in Hn.
    simpl in Hn. destruct Hn as (th' & out & [= <-] & ->). eauto.
Qed.

(** ** Children are canceled in the order they were registered *)

Lemma RunKids_app w (a b : list nat) ft d w' :
  RunKids w (a ++ b) ft d w' →
  ∃ da wa db, RunKids w a ft da wa ∧ RunKids wa b ft db w' ∧ d = db ++ da.
Proof.
  revert w d. induction a as [|c a IH]; intros w d HK; simpl in HK.
  - exists [], w, d. split; [constructor|]. split; [done|by rewrite app_nil_r].
  - inversion HK as [|? ? ? ? d1 w1 d2 ? HR HK']; subst.
    destruct (IH _ _ HK') as (da & wa & db & Ha & Hb & ->).
    exists (da ++ d1), wa, db. split; [by econstructor|].
    split; [done|by rewrite app_assoc].
Qed.

Lemma Run_sibling_order w t ft d w' (l1 l2 l3 : list nat) c1 c2 :
  wf w → Run w t ft d w' →
  kids w t = l1 ++ c1 :: l2 ++ c2 :: l3 →
  ∃ newer older,
    d = newer ++ older ∧
    (∀ e, e ∈ older → ¬ desc w c2 (ev_task e)) ∧
    (∀ e, e ∈ newer → ¬ desc w c1 (ev_task e)) ∧
    (∀ i, desc w c1 i → ∃ fi, EvPropagate i fi ∈ older) ∧
    (∀ i, desc w c2 i → ∃ fi, EvPropagate i fi ∈ newer).
Proof.
  intros Hwf HR Hk.
  pose proof (wf_nodup _ Hwf t) as Hnd. rewrite Hk in Hnd.
  assert (l1 ++ c1 :: l2 ++ c2 :: l3 = (l1 ++ c1 :: l2) ++ c2 :: l3) as Hre
    by (by rewrite <- app_assoc).
  rewrite Hre in Hnd, Hk.
  apply NoDup_app in Hnd as (_ & Hsep & _).
  assert (c1 ∈ l1 ++ c1 :: l2) as Hc1f
    by (apply elem_of_app; right; left).
  assert (c2 ∈ c2 :: l3) as Hc2s by left.
  assert (∀ c, c ∈ l1 ++ c1 :: l2 → c ∈ kids w t) as Hfst
    by (intros c Hc; rewrite Hk; apply elem_of_app; by left).
  assert (∀ c, c ∈ c2 :: l3 → c ∈ kids w t) as Hsnd
    by (intros c Hc; rewrite Hk; apply elem_of_app; by right).
  pose proof (Hfst _ Hc1f) as Hc1. pose proof (Hsnd _ Hc2s) as Hc2.
  pose proof (proj1 Run_about _ _ _ _ _ HR Hwf) as Hab.
  inversion HR as [? ? ? T w2 ft' own kd ? ET EF Hown HK]; subst.
  pose proof (step_shape _ _ _ _ _ _ EF) as Hs.
  destruct (own_events _ _ _ _ _ _ _ ET EF Hown) as [Hn _].
  rewrite <- (kids_lookup w t T ET), Hk in HK.
  apply RunKids_app in HK as (da & wa & db & Ha & Hb & ->).
  pose proof (proj2 Run_shape_log _ _ _ _ _ Ha) as [Hsa _].
  assert (∀ e, e ∈ da ++ own → ¬ desc w c2 (ev_task e)) as Hold.
  { intros e [He|He]%elem_of_app Hd.
    - destruct (proj2 Run_events_desc _ _ _ _ _ Ha e He) as (c & Hc & Hdc).
      apply (shape_desc w2 w) in Hdc; [|done].
      assert (c = c2) as -> by (apply (siblings_disjoint w t c c2 (ev_task e)); auto).
      by apply (Hsep c2).
    - rewrite (node_events_about _ _ _ _ _ Hn He) in Hd.
      pose proof (desc_kid_lt _ _ _ _ Hwf Hc2 Hd). lia. }
  assert (∀ e, e ∈ db → ¬ desc w c1 (ev_task e)) as Hnew.
  { intros e He Hd.
    destruct (proj2 Run_events_desc _ _ _ _ _ Hb e He) as (c & Hc & Hdc).
    apply (shape_desc wa w) in Hdc; [|congruence].
    assert (c = c1) as -> by (apply (siblings_disjoint w t c c1 (ev_task e)); auto).
    by apply (Hsep c1). }
  exists db, (da ++ own). split; [by rewrite app_assoc|].
  split; [done|]. split; [done|]. split.
  - intros i Hd.
    destruct (Hab i (desc_step _ _ _ _ Hc1 Hd)) as (fi & Hi & _).
    apply node_events_in, about_elem in Hi. exists fi.
    rewrite <- app_assoc in Hi. apply elem_of_app in Hi as [Hi|Hi]; [|done].
    by destruct (Hnew _ Hi).
  - intros i Hd.
    destruct (Hab i (desc_step _ _ _ _ Hc2 Hd)) as (fi & Hi & _).
    apply node_events_in, about_elem in Hi. exists fi.
    rewrite <- app_assoc in Hi. apply elem_of_app in Hi as [Hi|Hi]; [done|].
    by destruct (Hold _ Hi).
Qed.

(** X9: [_cancel] goes through [children] with [forEach], each call running
    to its end before the next: of two children of a task, the one that
    comes first in [children] is canceled first, together with everything
    below it, before anything at or below the later child is touched. *)
Theorem children_canceled_in_registration_order
    (w : World) (t : nat) (ft : Value) (l1 l2 l3 : list nat) (c1 c2 : nat) :
  wf w → t < length (tasks w) →
  kids w t = l1 ++ c1 :: l2 ++ c2 :: l3 →
  ∃ newer older w',
    propagate w t ft = Some w' ∧ log w' = (newer ++ older) ++ log w ∧
    (∀ e, e ∈ older → ¬ desc w c2 (ev_task e)) ∧
    (∀ e, e ∈ newer → ¬ desc w c1 (ev_task e)) ∧
    (∀ i, desc w c1 i → ∃ fi, EvPropagate i fi ∈ older) ∧
    (∀ i, desc w c2 i → ∃ fi, EvPropagate i fi ∈ newer).
Proof.
  intros Hwf Ht Hk.
  destruct (propagate_total w t ft Hwf Ht) as (d & w' & E & HR).
  destruct (Run_sibling_order _ _ _ _ _ _ _ _ _ _ Hwf HR Hk)
    as (newer & older & -> & H).
  exists newer, older, w'. split; [done|].
  split; [by apply (Run_log _ _ _ _ _ HR)|done].
Qed.

(** X10: [then] pushes the new task at the end of [children], so a task
    made by [then] is canceled after every child its parent already had:
    when the parent is canceled, each earlier child and everything below
    it has been entered before the new task is. *)
Theorem task_made_last_is_canceled_last
    (w w1 : World) (t n c : nat) (f g : option Handler) (ft : Value) :
  reached w → then_ w t f g = Some (w1, n) → c ∈ kids w t →
  kids w1 t = kids w t ++ [n] ∧
  ∃ newer older w',
    propagate w1 t ft = Some w' ∧ log w' = (newer ++ older) ++ log w1 ∧
    (∀ i, desc w1 c i → ∃ fi, EvPropagate i fi ∈ older) ∧
    (∀ e, e ∈ older → ev_task e ≠ n) ∧
    (∃ fn, EvPropagate n fn ∈ newer) ∧
    (∀ e, e ∈ newer → ¬ desc w1 c (ev_task e)).
Proof.
  intros Hre Hth Hc.
  pose proof (reached_wf _ (reached_then _ _ _ _ _ _ Hth Hre)) as Hwf.
  pose proof (then_lookup _ _ _ _ _ _ Hth) as (_ & Htn & Hlen & _).
  pose proof (proj1 (then_tree _ _ _ _ _ _ Hth) t) as Hk.
  rewrite decide_True in Hk by done.
  split; [done|].
  apply list_elem_of_split in Hc as (l1 & l2 & Hl).
  assert (kids w1 t = l1 ++ c :: l2 ++ n :: []) as Hk'
    by (rewrite Hk, Hl; by rewrite <- app_assoc).
  destruct (propagate_total w1 t ft Hwf) as (d & w' & E & HR); [lia|].
  destruct (Run_sibling_order _ _ _ _ _ _ _ _ _ _ Hwf HR Hk')
    as (newer & older & -> & Hold & Hnew & H1 & H2).
  exists newer, older, w'. split; [done|].
  split; [by apply (Run_log _ _ _ _ _ HR)|].
  split; [done|]. split; [|split; [|done]].
  - intros e He Heq. apply (Hold e He). rewrite Heq. constructor.
  - apply H2. constructor.
Qed.

(** ** The further properties at concrete worlds *)

Lemma tasks_only_grow_witness :
  tasks (run [OpNew (Returns VUndefined)]) !! 0
    = Some (with_canceler (RootCanceler 0 (Returns VUndefined))
                          (base_future None None)) ∧
  ∃ T', tasks (run ([OpNew (Returns VUndefined)] ++
                    [OpThen 0 None None; OpCancel 0])) !! 0 = Some T' ∧
        canceler T' = RootCanceler 0 (Returns VUndefined) ∧
        [] `prefix_of` children T'.
Proof.
  split; [reflexivity|].
  destruct (tasks_only_grow [OpNew (Returns VUndefined)]
              [OpThen 0 None None; OpCancel 0] 0
              (with_canceler (RootCanceler 0 (Returns VUndefined))
                             (base_future None None)))
    as (T' & E & Hk & _ & _ & _ & Hc); [reflexivity|].
  exists T'. split; [exact E|]. split; [exact Hk|exact Hc].
Defined.

Lemma cancel_twice_is_cancel_once_witness :
  Task_cancel chain_world 1
    = Normal (after chain_world (Task_cancel chain_world 1)) ∧
  Task_cancel (after chain_world (Task_cancel chain_world 1)) 1
    = Normal (after chain_world (Task_cancel chain_world 1)).
Proof.
  split; [vm_compute; reflexivity|].
  apply (cancel_twice_is_cancel_once chain_world);
    [apply run_wf|vm_compute; reflexivity].
Defined.




Lemma cancel_without_thenables_is_synchronous_witness :
  0 < length (tasks skipping_world) ∧
  isThenable VUndefined = false ∧
  plain_results skipping_world 0 ∧
  ∃ d w', propagate skipping_world 0 VUndefined = Some w' ∧
          thenables w' = thenables skipping_world ∧
          ∃ fi, about 3 d = [EvFinally 3 Canceled; EvPropagate 3 fi].
Proof.
  assert (plain_results skipping_world 0) as Hpl.
  { intros i cb _ Hf.
    destruct i as [|[|[|[|i]]]]; vm_compute in Hf;
      try discriminate Hf; injection Hf as <-; reflexivity. }
  split; [vm_compute; lia|]. split; [reflexivity|]. split; [exact Hpl|].
  destruct (cancel_without_thenables_is_synchronous skipping_world 0 VUndefined)
    as (d & w' & E & _ & Hth & _ & Hfin);
    [apply run_wf|vm_compute; lia|reflexivity|exact Hpl|].
  exists d, w'. split; [exact E|]. split; [exact Hth|].
  destruct (Hfin 3 (Returns VUndefined)) as (fi & _ & Hab).
  - eapply desc_step; [|eapply desc_step; [|apply desc_child]];
      vm_compute; apply list_elem_of_here.
  - reflexivity.
  - exists fi. exact Hab.
Defined.

Lemma cancel_with_thenable_calls_no_finalizer_witness :
  0 < length (tasks finally_world) ∧
  ∃ d w', propagate finally_world 0 (VThenable 0) = Some w' ∧
          log w' = d ++ log finally_world ∧
          (∀ i s, EvFinally i s ∉ d) ∧
          ∃ th' out, about 1 d =
            [EvAttach 1 th' out; EvPropagate 1 (VThenable th')].
Proof.
  split; [vm_compute; lia|].
  destruct (cancel_with_thenable_calls_no_finalizer finally_world 0 0)
    as (d & w' & E & Hlog & _ & Hno & Hat & _); [apply run_wf|vm_compute; lia|].
  exists d, w'. split; [exact E|]. split; [exact Hlog|]. split; [exact Hno|].
  apply (Hat 1 (Returns (VData 1))); [|reflexivity].
  apply desc_child. vm_compute. apply list_elem_of_here.
Defined.

Lemma children_canceled_in_registration_order_witness :
  0 < length (tasks siblings_world) ∧
  kids siblings_world 0 = [] ++ 1 :: [] ++ 2 :: [] ∧
  ∃ newer older w',
    propagate siblings_world 0 VUndefined = Some w' ∧
    log w' = (newer ++ older) ++ log siblings_world ∧
    (∃ f1, EvPropagate 1 f1 ∈ older) ∧ (∃ f2, EvPropagate 2 f2 ∈ newer).
Proof.
  split; [vm_compute; lia|]. split; [reflexivity|].
  destruct (children_canceled_in_registration_order
              siblings_world 0 VUndefined [] [] [] 1 2)
    as (newer & older & w' & E & Hlog & _ & _ & H1 & H2);
    [apply run_wf|vm_compute; lia|reflexivity|].
  exists newer, older, w'. split; [exact E|]. split; [exact Hlog|].
  split; [apply H1|apply H2]; constructor.
Defined.

Lemma task_made_last_is_canceled_last_witness :
  then_ chain_world 0 None None = Some (siblings_world, 2) ∧
  1 ∈ kids chain_world 0 ∧
  kids siblings_world 0 = kids chain_world 0 ++ [2] ∧
  ∃ (newer older : list Event) w',
    propagate siblings_world 0 VUndefined = Some w' ∧
    (∃ f1, EvPropagate 1 f1 ∈ older) ∧ (∃ f2, EvPropagate 2 f2 ∈ newer).
Proof.
  assert (1 ∈ kids chain_world 0) as H1
    by (vm_compute; apply list_elem_of_here).
  split; [reflexivity|]. split; [exact H1|].
  destruct (task_made_last_is_canceled_last
              chain_world siblings_world 0 2 1 None None VUndefined)
    as (Hk & newer & older & w' & E & _ & Ho & _ & Hn & _);
    [apply run_reached|reflexivity|exact H1|].
  split; [exact Hk|].
  exists newer, older, w'. split; [exact E|].
  split; [apply Ho; constructor|exact Hn].
Defined.
